(** * combine: a shallow embedding of the tag-driven batch aggregation engine

    The development follows [combine.go]: the directive parser [parseTag],
    the registry held by [Combine], the two passes of [Process] (collection
    of [fieldRef]s per function name, then one [runTask] per name) and the
    two binders [setField] and [callOutputFunc].

    Conventions.
    - Go's [any] is [option Dyn]: [None] is the nil interface, [Some d] a
      dynamic value.  The facts [reflect] supplies about types (zero
      values, assignability, conversion, comparability) are the fields of
      the class [Reflect]; every theorem holds for every instance.
    - Records live in a heap indexed by pointer; a batch element is a
      pointer, a struct passed by value, or something else.
    - Go leaves the iteration order of [range] over a map unspecified: the
      order in which [Process] builds its tasks is a parameter [order] that
      must be a permutation of the collected names.  In concurrent mode the
      interleaving of the goroutines is a parameter [sched].
    - A run ends in [Ok], in a returned [Err], or in a run-time [Panic]. *)

From Stdlib Require Import ZArith Ascii.
From stdpp Require Import base option list gmap strings fin_maps.

(** ** The functions of Go's [strings] package used by the engine *)

Module strings.

(** [strings.Split(s, sep)] for a one-byte separator: every occurrence of
    the separator ends a segment, so [n] separators give [n+1] segments. *)
Fixpoint Split (s : string) (sep : ascii) : list string :=
  match s with
  | EmptyString => [EmptyString]
  | String c r =>
      if decide (c = sep) then EmptyString :: Split r sep
      else match Split r sep with
           | [] => [String c EmptyString]
           | p :: ps => String c p :: ps
           end
  end.

(** The UTF-8 encodings of the runes for which [unicode.IsSpace] holds:
    tab, LF, VT, FF, CR, space, U+0085, U+00A0, U+1680, U+2000..U+200A,
    U+2028, U+2029, U+202F, U+205F and U+3000. *)
Definition spaceRunes : list (list nat) :=
  [ [9]; [10]; [11]; [12]; [13]; [32];
    [194; 133]; [194; 160];
    [225; 154; 128];
    [226; 128; 128]; [226; 128; 129]; [226; 128; 130]; [226; 128; 131];
    [226; 128; 132]; [226; 128; 133]; [226; 128; 134]; [226; 128; 135];
    [226; 128; 136]; [226; 128; 137]; [226; 128; 138];
    [226; 128; 168]; [226; 128; 169]; [226; 128; 175];
    [226; 129; 159];
    [227; 128; 128] ].

Definition bytes (s : string) : list ascii := String.list_ascii_of_string s.
Definition ofBytes (l : list ascii) : string := String.string_of_list_ascii l.

(** [stripPrefix p l] is the rest of [l] after the bytes [p], if [l]
    starts with them. *)
Fixpoint stripPrefix (p : list nat) (l : list ascii) : option (list ascii) :=
  match p, l with
  | [], _ => Some l
  | n :: p', c :: l' =>
      if decide (nat_of_ascii c = n) then stripPrefix p' l' else None
  | _ :: _, [] => None
  end.

(** Removes one leading white-space rune, if there is one. *)
Fixpoint stripSpace (runes : list (list nat)) (l : list ascii)
  : option (list ascii) :=
  match runes with
  | [] => None
  | p :: runes' =>
      match stripPrefix p l with
      | Some l' => Some l'
      | None => stripSpace runes' l
      end
  end.

Fixpoint trimLeft (runes : list (list nat)) (fuel : nat) (l : list ascii)
  : list ascii :=
  match fuel with
  | O => l
  | S fuel' =>
      match stripSpace runes l with
      | Some l' => trimLeft runes fuel' l'
      | None => l
      end
  end.

(** [strings.TrimSpace]: leading and trailing white-space runes removed.
    The trailing ones are found on the reversed bytes against the reversed
    encodings. *)
Definition TrimSpace (s : string) : string :=
  let l := trimLeft spaceRunes (length (bytes s)) (bytes s) in
  let r := trimLeft (reverse <$> spaceRunes) (length l) (reverse l) in
  ofBytes (reverse r).

(** [strings.HasPrefix]. *)
Fixpoint HasPrefix (s prefix : string) : bool :=
  match prefix, s with
  | EmptyString, _ => true
  | String p prefix', String c s' =>
      if decide (c = p) then HasPrefix s' prefix' else false
  | String _ _, EmptyString => false
  end.

Fixpoint dropBytes (n : nat) (s : string) : string :=
  match n, s with
  | O, _ => s
  | S n', String _ s' => dropBytes n' s'
  | S _, EmptyString => EmptyString
  end.

(** [strings.TrimPrefix]. *)
Definition TrimPrefix (s prefix : string) : string :=
  if HasPrefix s prefix then dropBytes (String.length prefix) s else s.

(** No byte of [s] is [sep]. *)
Fixpoint free (sep : ascii) (s : string) : bool :=
  match s with
  | EmptyString => true
  | String c r => if decide (c = sep) then false else free sep r
  end.

End strings.

(** ** The directive parser *)

(** [tagSpec]: parsed from the struct tag [funcName,outputTarget]. *)
Record tagSpec := mkTagSpec {
  funcName : string;
  outputTarget : string  (* field name or fn:Method *)
}.

#[global] Instance tagSpec_eq_dec : EqDecision tagSpec.
Proof. solve_decision. Defined.

(** [parseTag] returns [(tagSpec, bool)] in Go; [None] is the [false]
    result. *)
Definition parseTag (tag : string) : option tagSpec :=
  if decide (tag = "") then None
  else
    let parts := strings.Split tag "," in
    if decide (length parts = 0) then None
    else
      let name := strings.TrimSpace (nth 0 parts "") in
      let target :=
        if decide (1 < length parts) then strings.TrimSpace (nth 1 parts "")
        else "" in
      if decide (name = "") then None
      else Some (mkTagSpec name target).


(** ** What [reflect] supplies about types and dynamic values *)

Class Reflect := {
  GoType : Type;                          (* reflect.Type *)
  Dyn : Type;                             (* a non-nil dynamic value *)
  TypeOf : Dyn -> GoType;                 (* reflect.TypeOf *)
  Zero : GoType -> option Dyn;            (* reflect.Zero(t).Interface() *)
  AssignableTo : GoType -> GoType -> bool;
  ConvertibleTo : GoType -> GoType -> bool;
  Convert : Dyn -> GoType -> Dyn;         (* Value.Convert *)
  Hashable : Dyn -> bool;                 (* usable as the key of a map *)
  OfInt : Z -> Dyn                        (* a Go int held in an any *)
}.

(** Go's [any]: the nil interface or a dynamic value. *)
Abbreviation any := (option Dyn).

Section Engine.
Context `{R : Reflect}.

(** *** Records *)

(** One field of a struct value: what [reflect.StructField] says about it
    ([Tag] is [field.Tag.Get("combine")]) and the value it holds. *)
Record StructField := mkField {
  Name : string;
  Typ : GoType;
  Tag : string;
  Exported : bool;
  Val : any
}.

(** A method of the pointer receiver: [Params] are [mt.In(i)], [Body arg vs]
    the field values the receiver holds after the call on [arg]. *)
Record Method := mkMethod {
  MethodName : string;
  Params : list GoType;
  Body : any -> list any -> list any
}.

Record StructVal := mkStruct {
  Fields : list StructField;
  Methods : list Method
}.

Abbreviation Heap := (gmap nat StructVal).

(** An element of the batch [items []any]. [PtrTo l] with nothing at [l] in
    the heap is a nil pointer or a pointer to something that is no struct. *)
Inductive Item :=
  | PtrTo (l : nat)
  | ByValue (s : StructVal)
  | NoRecord.

Inductive Kind := KInvalid | KPtr | KStruct | KOther.

#[global] Instance Kind_eq_dec : EqDecision Kind.
Proof. solve_decision. Defined.

(** [reflect.Value] as the engine meets it. *)
Inductive Value :=
  | VPtr (l : nat)            (* reflect.ValueOf(p) *)
  | VElem (l : nat)           (* p.Elem(): the addressable struct behind p *)
  | VStruct (s : StructVal)   (* a struct copied into an interface *)
  | VOther.

Definition ValueOf (item : Item) : Value :=
  match item with
  | PtrTo l => VPtr l
  | ByValue s => VStruct s
  | NoRecord => VOther
  end.

Definition kindOf (h : Heap) (v : Value) : Kind :=
  match v with
  | VPtr _ => KPtr
  | VElem l => if h !! l is Some _ then KStruct else KInvalid
  | VStruct _ => KStruct
  | VOther => KOther
  end.

Definition Elem (v : Value) : Value :=
  match v with VPtr l => VElem l | _ => v end.

Definition CanAddr (v : Value) : bool :=
  match v with VElem _ => true | _ => false end.

Definition Addr (v : Value) : Value :=
  match v with VElem l => VPtr l | _ => v end.

Definition derefIfPtr (h : Heap) (v : Value) : Value :=
  if decide (kindOf h v = KPtr) then Elem v else v.

(** The struct a value of kind [Struct] denotes. *)
Definition structOf (h : Heap) (v : Value) : option StructVal :=
  match v with
  | VElem l => h !! l
  | VStruct s => Some s
  | _ => None
  end.

Definition fieldsOf (h : Heap) (v : Value) : list StructField :=
  from_option Fields [] (structOf h v).

Definition withVal (v : any) (f : StructField) : StructField :=
  mkField (Name f) (Typ f) (Tag f) (Exported f) v.

Definition setVal (i : nat) (v : any) (s : StructVal) : StructVal :=
  mkStruct (alter (withVal v) i (Fields s)) (Methods s).

Fixpoint storeVals (fs : list StructField) (vs : list any)
  : list StructField :=
  match fs, vs with
  | f :: fs', v :: vs' => withVal v f :: storeVals fs' vs'
  | _, _ => fs
  end.

Definition callMethod (m : Method) (arg : any) (s : StructVal) : StructVal :=
  mkStruct (storeVals (Fields s) (Body m arg (Val <$> Fields s))) (Methods s).

(** *** Errors, events and the monad of the engine *)

Inductive Error :=
  | ErrElement                      (* slice element must be struct or *struct *)
  | ErrNotRegistered (fn : string)  (* handler %s not registered *)
  | ErrHandlerNotFound (fn : string)  (* aggregate handler %s not found *)
  | ErrSetFieldTarget               (* setField target must be struct *)
  | ErrCannotSet (fieldName : string)  (* cannot set field %s *)
  | ErrCannotAssign (t : GoType) (fieldName : string) (ft : GoType)
  | ErrAddressable      (* output function requires addressable receiver *)
  | ErrMethodNotFound (method : string)   (* method %s not found *)
  | ErrMethodArity (method : string)  (* method %s must accept 1 parameter *)
  | ErrArgument (t pt : GoType).    (* argument type %s not assignable to %s *)

Abbreviation Ctx := (gmap string any).

(** What a run does that a caller can observe. *)
Inductive Event :=
  | EvLookup (fn : string)                 (* c.aggregateHandlers[fn] read *)
  | EvHandle (fn : string) (vals : list any) (ctx : Ctx)  (* handler.Handle *)
  | EvSet (l : nat) (fieldName : string) (v : any)        (* fv.Set *)
  | EvCall (l : nat) (method : string) (arg : any).       (* m.Call *)

Inductive Outcome (A : Type) :=
  | Ok (a : A)
  | Err (e : Error)
  | Panic.
Arguments Ok {A} a.
Arguments Err {A} e.
Arguments Panic {A}.

Record State := mkState {
  heap : Heap;
  trace : list Event
}.

Definition M (A : Type) : Type := State -> State * Outcome A.

#[global] Instance M_ret : MRet M := fun A a st => (st, Ok a).

#[global] Instance M_bind : MBind M := fun A B f m st =>
  match m st with
  | (st', Ok a) => f a st'
  | (st', Err e) => (st', Err e)
  | (st', Panic) => (st', Panic)
  end.

Definition fail {A} (e : Error) : M A := fun st => (st, Err e).
Definition panic {A} : M A := fun st => (st, Panic).
Definition getHeap : M Heap := fun st => (st, Ok (heap st)).
Definition emit (e : Event) : M unit :=
  fun st => (mkState (heap st) (trace st ++ [e]), Ok ()).
Definition update (l : nat) (f : StructVal -> StructVal) : M unit :=
  fun st => (mkState (alter f l (heap st)) (trace st), Ok ()).

(** [for i, x := range l] from index [i], threading an accumulator. *)
Fixpoint foldFrom {A B} (f : nat -> A -> B -> M B) (i : nat) (l : list A)
  (b : B) : M B :=
  match l with
  | [] => mret b
  | x :: l' => b' ← f i x b; foldFrom f (S i) l' b'
  end.

Fixpoint forFrom {A} (f : nat -> A -> M unit) (i : nat) (l : list A)
  : M unit :=
  match l with
  | [] => mret ()
  | x :: l' => f i x;; forFrom f (S i) l'
  end.

Fixpoint forEach {A} (f : A -> M unit) (l : list A) : M unit :=
  match l with
  | [] => mret ()
  | x :: l' => f x;; forEach f l'
  end.

(** *** The component *)

(** What a handler returns, read as the engine reads it: [result k] is
    [v, ok := result[k]] for a hashable key [k]. *)
Abbreviation ResultMap := (any -> option any).

(** [AggregateHandler.Handle(values, combineCtx)]. *)
Abbreviation AggregateHandler := (list any -> Ctx -> ResultMap).

Record Combine := mkCombine {
  concurrent : bool;
  combineCtx : Ctx;
  aggregateHandlers : gmap string AggregateHandler
}.

Definition WithConcurrent (c : Combine) : Combine :=
  mkCombine true (combineCtx c) (aggregateHandlers c).

Definition WithCtx (ctx : Ctx) (c : Combine) : Combine :=
  mkCombine (concurrent c) ctx (aggregateHandlers c).

Definition New (opts : list (Combine -> Combine)) : Combine :=
  foldl (fun c opt => opt c) (mkCombine false ∅ ∅) opts.

Definition Register (fn : string) (h : AggregateHandler) (c : Combine)
  : Combine :=
  mkCombine (concurrent c) (combineCtx c) (<[fn := h]> (aggregateHandlers c)).

(** *** First pass of [Process]: collection *)

Record fieldRef := mkRef {
  itemValue : Value;   (* struct or pointer to struct *)
  fieldIdx : nat;
  fieldVal : any;
  output : string      (* may be field name or fn:Method *)
}.

Abbreviation Aggregates := (gmap string (list fieldRef)).

(** [fv.Interface()]: panics on a field that is not exported. *)
Definition Interface (field : StructField) : M any :=
  if Exported field then mret (Val field) else panic.

(** The body of the loop over the fields of one element. *)
Definition collectField (c : Combine) (elem : Value) (fi : nat)
  (field : StructField) (aggregates : Aggregates) : M Aggregates :=
  match parseTag (Tag field) with
  | None => mret aggregates
  | Some spec =>
      value ← Interface field;
      emit (EvLookup (funcName spec));;
      match aggregateHandlers c !! funcName spec with
      | Some _ =>
          mret (<[funcName spec :=
                    default [] (aggregates !! funcName spec)
                      ++ [mkRef elem fi value (outputTarget spec)]]>
                  aggregates)
      | None => fail (ErrNotRegistered (funcName spec))
      end
  end.

(** The body of the loop over the elements. *)
Definition collectItem (c : Combine) (item : Item) (aggregates : Aggregates)
  : M Aggregates :=
  h ← getHeap;
  let elem := ValueOf item in
  let structVal := if decide (kindOf h elem = KPtr) then Elem elem else elem in
  if decide (kindOf h structVal ≠ KStruct) then fail ErrElement
  else foldFrom (collectField c elem) 0 (fieldsOf h structVal) aggregates.

Definition collect (c : Combine) (items : list Item) : M Aggregates :=
  foldFrom (fun _ => collectItem c) 0 items ∅.

(** *** Second pass: one task per function name *)

Record aggTask := mkTask {
  name : string;
  refs : list fieldRef;
  values : list any
}.

(** [for name, refs := range aggregates]: the tasks in the order [order] in
    which the runtime happens to enumerate the keys. *)
Definition rangeTasks (order : list string) (aggregates : Aggregates)
  : list aggTask :=
  omap (fun n => (fun rs => mkTask n rs (fieldVal <$> rs)) <$> aggregates !! n)
       order.

(** The orders the runtime may choose: the keys of the map, each once. *)
Definition rangeOrder (order : list string) (aggregates : Aggregates) : Prop :=
  order ≡ₚ (map_to_list aggregates).*1.

Definition refNameByIndex (h : Heap) (item : Value) (idx : nat) : M string :=
  match fieldsOf h (derefIfPtr h item) !! idx with
  | Some f => mret (Name f)
  | None => panic
  end.

(** [structVal.FieldByName(fieldName)]: position and description. *)
Definition FieldByName (h : Heap) (structVal : Value) (fieldName : string)
  : option (nat * StructField) :=
  list_find (fun f => Name f = fieldName) (fieldsOf h structVal).

Definition CanSet (structVal : Value) (f : StructField) : bool :=
  CanAddr structVal && Exported f.

(** [fv.Set(v)] on field [i] of [structVal]. *)
Definition Set_ (structVal : Value) (i : nat) (fieldName : string) (v : any)
  : M unit :=
  match structVal with
  | VElem l => update l (setVal i v);; emit (EvSet l fieldName v)
  | _ => panic
  end.

Definition setField (structVal : Value) (fieldName : string) (value : any)
  : M unit :=
  h ← getHeap;
  structVal ←
    (if decide (kindOf h structVal ≠ KStruct) then
       let sv := derefIfPtr h structVal in
       if decide (kindOf h sv ≠ KStruct) then fail ErrSetFieldTarget
       else mret sv
     else mret structVal);
  match FieldByName h structVal fieldName with
  | None => fail (ErrCannotSet fieldName)
  | Some (i, fv) =>
      if negb (CanSet structVal fv) then fail (ErrCannotSet fieldName)
      else
        match value with
        | None => Set_ structVal i fieldName (Zero (Typ fv))
        | Some val =>
            if AssignableTo (TypeOf val) (Typ fv) then
              Set_ structVal i fieldName (Some val)
            else if ConvertibleTo (TypeOf val) (Typ fv) then
              Set_ structVal i fieldName (Some (Convert val (Typ fv)))
            else fail (ErrCannotAssign (TypeOf val) fieldName (Typ fv))
        end
  end.

(** [recv.MethodByName(method)] on a pointer receiver. *)
Definition MethodByName (h : Heap) (recv : Value) (method : string)
  : option Method :=
  match recv with
  | VPtr l =>
      s ← h !! l;
      snd <$> list_find (fun m => MethodName m = method) (Methods s)
  | _ => None
  end.

(** [m.Call([]reflect.Value{in})]. *)
Definition Call (recv : Value) (m : Method) (arg : any) : M unit :=
  match recv with
  | VPtr l => update l (callMethod m arg);; emit (EvCall l (MethodName m) arg)
  | _ => panic
  end.

Definition callOutputFunc (item : Value) (method : string) (arg : any)
  : M unit :=
  h ← getHeap;
  recv ←
    (if decide (kindOf h item = KPtr) then mret item
     else if CanAddr item then mret (Addr item)
     else fail ErrAddressable);
  match MethodByName h recv method with
  | None => fail (ErrMethodNotFound method)
  | Some m =>
      match Params m with
      | [pt] =>
          arg' ←
            match arg with
            | None => mret (Zero pt)
            | Some a =>
                if AssignableTo (TypeOf a) pt then mret (Some a)
                else if ConvertibleTo (TypeOf a) pt then
                  mret (Some (Convert a pt))
                else fail (ErrArgument (TypeOf a) pt)
            end;
          Call recv m arg'
      | _ => fail (ErrMethodArity method)
      end
  end.

Definition hashable (k : any) : bool :=
  match k with None => true | Some d => Hashable d end.

(** The value written back for the entry at position [idx]: the index key
    first, then the original field value as key (a map lookup under a key
    that is not hashable panics), else nil. *)
Definition resolve (result : ResultMap) (idx : nat) (ref : fieldRef)
  : M any :=
  match result (Some (OfInt (Z.of_nat idx))) with
  | Some v => mret v
  | None =>
      if hashable (fieldVal ref) then
        match result (fieldVal ref) with
        | Some v => mret v
        | None => mret None
        end
      else panic
  end.

(** The body of the write-back loop of [runTask]. *)
Definition bindEntry (result : ResultMap) (idx : nat) (ref : fieldRef)
  : M unit :=
  out ← resolve result idx ref;
  if bool_decide (output ref = "")
     || negb (strings.HasPrefix (output ref) "fn:")
  then
    h ← getHeap;
    targetName ←
      (if decide (output ref = "") then
         refNameByIndex h (itemValue ref) (fieldIdx ref)
       else mret (output ref));
    setField (derefIfPtr h (itemValue ref)) targetName out
  else
    callOutputFunc (itemValue ref) (strings.TrimPrefix (output ref) "fn:") out.

(** The head of [runTask]: registry lookup and the one call of the handler. *)
Definition invoke (c : Combine) (task : aggTask) : M ResultMap :=
  emit (EvLookup (name task));;
  match aggregateHandlers c !! name task with
  | None => fail (ErrHandlerNotFound (name task))
  | Some handler =>
      emit (EvHandle (name task) (values task) (combineCtx c));;
      mret (handler (values task) (combineCtx c))
  end.

Definition runTask (c : Combine) (task : aggTask) : M unit :=
  result ← invoke c task;
  forFrom (bindEntry result) 0 (refs task).

(** *** Concurrent mode: one goroutine per task *)

(** Where a goroutine stands in [runTask]. *)
Inductive Goroutine :=
  | GStart (task : aggTask)
  | GBind (result : ResultMap) (idx : nat) (rest : list fieldRef)
  | GDone.

(** One step of a goroutine: the head of [runTask], or one round of its
    write-back loop. *)
Definition stepG (c : Combine) (g : Goroutine) : M Goroutine :=
  match g with
  | GStart task => result ← invoke c task; mret (GBind result 0 (refs task))
  | GBind result idx (ref :: rest) =>
      bindEntry result idx ref;; mret (GBind result (S idx) rest)
  | GBind _ _ [] => mret GDone
  | GDone => mret GDone
  end.

(** [if err := runTask(t); err != nil]: the error is a value, not an abort. *)
Definition try {A} (m : M A) : M (Error + A) := fun st =>
  match m st with
  | (st', Ok a) => (st', Ok (inr a))
  | (st', Err e) => (st', Ok (inl e))
  | (st', Panic) => (st', Panic)
  end.

(** [once.Do(func() { firstErr = err })]. *)
Definition once (firstErr : option Error) (err : Error) : option Error :=
  match firstErr with Some e => Some e | None => Some err end.

Abbreviation Pool := (list Goroutine * option Error)%type.

(** The scheduler lets goroutine [i] take one step. *)
Definition stepPool (c : Combine) (i : nat) (p : Pool) : M Pool :=
  match p.1 !! i with
  | None => mret p
  | Some g =>
      r ← try (stepG c g);
      match r with
      | inl err => mret (<[i := GDone]> p.1, once p.2 err)
      | inr g' => mret (<[i := g']> p.1, p.2)
      end
  end.

Fixpoint runSched (c : Combine) (sched : list nat) (p : Pool) : M Pool :=
  match sched with
  | [] => mret p
  | i :: sched' => p' ← stepPool c i p; runSched c sched' p'
  end.

(** [wg.Wait()] returns when every goroutine has ended: after the steps of
    [sched], each goroutine is given the steps it may still need (a step of
    a goroutine that has ended does nothing). *)
Fixpoint waitFrom (i : nat) (tasks : list aggTask) : list nat :=
  match tasks with
  | [] => []
  | t :: ts => replicate (2 + length (refs t)) i ++ waitFrom (S i) ts
  end.

Definition waitSched (tasks : list aggTask) : list nat := waitFrom 0 tasks.

Definition runConcurrent (c : Combine) (sched : list nat)
  (tasks : list aggTask) : M unit :=
  p ← runSched c (sched ++ waitSched tasks) (GStart <$> tasks, None);
  match p.2 with
  | Some err => fail err
  | None => mret ()
  end.

(** *** Process *)

(** [Process(items)]. The two choices Go leaves to the runtime are
    parameters: [order], the order in which the map of collected tasks is
    enumerated, and [sched], the interleaving of the goroutines. *)
Definition Process (order : list string) (sched : list nat) (c : Combine)
  (items : list Item) : M unit :=
  let n := length items in
  if decide (n = 0) then mret ()
  else
    aggregates ← collect c items;
    let tasks := rangeTasks order aggregates in
    if concurrent c then runConcurrent c sched tasks
    else forEach (runTask c) tasks.

(** [order] is an order in which the runtime may enumerate the tasks
    collected from [items] in state [st]. *)
Definition orderOk (c : Combine) (items : list Item) (st : State)
  (order : list string) : Prop :=
  forall st' aggregates,
    collect c items st = (st', Ok aggregates) -> rangeOrder order aggregates.

End Engine.

Arguments Ok {R A} a.
Arguments Err {R A} e.
Arguments Panic {R A}.

(** ** Vocabulary of the specification *)

Section Vocabulary.
Context `{R : Reflect}.

Abbreviation Heap := (gmap nat StructVal).
Abbreviation Ctx := (gmap string any).
Abbreviation ResultMap := (any -> option any).
Abbreviation Aggregates := (gmap string (list fieldRef)).

(** *** What collection finds, stated on the batch *)

(** The record an element denotes, if it is one. *)
Definition record (h : Heap) (item : Item) : option StructVal :=
  match item with
  | PtrTo l => h !! l
  | ByValue s => Some s
  | NoRecord => None
  end.

(** The directives of the fields [fs] (declared from position [i] on) of
    element [elem], in declaration order: function name and entry. *)
Fixpoint fieldEntries (elem : Value) (i : nat) (fs : list StructField)
  : list (string * fieldRef) :=
  match fs with
  | [] => []
  | f :: fs' =>
      match parseTag (Tag f) with
      | Some spec =>
          (funcName spec, mkRef elem i (Val f) (outputTarget spec))
            :: fieldEntries elem (S i) fs'
      | None => fieldEntries elem (S i) fs'
      end
  end.

Definition itemEntries (h : Heap) (item : Item) : list (string * fieldRef) :=
  fieldEntries (ValueOf item) 0 (from_option Fields [] (record h item)).

(** Every directive of the batch, in discovery order. *)
Definition batchEntries (h : Heap) (items : list Item)
  : list (string * fieldRef) :=
  items ≫= itemEntries h.

(** The entries collected for the function [fn], in discovery order. *)
Definition entriesFor (fn : string) (es : list (string * fieldRef))
  : list fieldRef :=
  (filter (fun e => e.1 = fn) es).*2.

(** The current field values collected for [fn] across the whole batch. *)
Definition collected (h : Heap) (items : list Item) (fn : string) : list any :=
  fieldVal <$> entriesFor fn (batchEntries h items).

(** A field that collection reads without trouble: if it carries a
    directive, it is exported and its function is registered. *)
Definition fieldOk (c : Combine) (f : StructField) : bool :=
  match parseTag (Tag f) with
  | Some spec =>
      Exported f && bool_decide (is_Some (aggregateHandlers c !! funcName spec))
  | None => true
  end.

(** An element that collection passes: a record whose fields are all fine. *)
Definition itemOk (c : Combine) (h : Heap) (item : Item) : bool :=
  match record h item with
  | Some s => forallb (fieldOk c) (Fields s)
  | None => false
  end.

Definition addEntry (aggregates : Aggregates) (e : string * fieldRef)
  : Aggregates :=
  <[e.1 := default [] (aggregates !! e.1) ++ [e.2]]> aggregates.

(** The map of task lists built from the entries. *)
Definition group (es : list (string * fieldRef)) : Aggregates :=
  foldl addEntry ∅ es.

(** The function names in the order in which they are first met. *)
Fixpoint firstSeen (names : list string) : list string :=
  match names with
  | [] => []
  | n :: names' => n :: filter (fun m => m <> n) (firstSeen names')
  end.

(** *** Traces *)

Definition isLookup (ev : Event) : bool :=
  match ev with EvLookup _ => true | _ => false end.

(** The handler invocations of a trace, in order. *)
Definition handled (tr : list Event) : list (string * list any * Ctx) :=
  omap (fun ev => match ev with
                  | EvHandle fn vals ctx => Some (fn, vals, ctx)
                  | _ => None
                  end) tr.

(** The invocations of the handler of [fn]. *)
Definition handledFor (fn : string) (tr : list Event)
  : list (string * list any * Ctx) :=
  filter (fun x => x.1.1 = fn) (handled tr).

(** *** Write-back, as a function of the heap's shape *)

#[global] Instance Outcome_ret : MRet Outcome := fun A a => Ok a.
#[global] Instance Outcome_bind : MBind Outcome := fun A B f o =>
  match o with
  | Ok a => f a
  | Err e => Err e
  | Panic => Panic
  end.

(** A write to the heap: [fv.Set] or [m.Call]. *)
Inductive Op :=
  | OpSet (l i : nat) (fieldName : string) (v : any)
  | OpCall (l : nat) (m : Method) (arg : any).

Definition applyOp (h : Heap) (op : Op) : Heap :=
  match op with
  | OpSet l i _ v => alter (setVal i v) l h
  | OpCall l m arg => alter (callMethod m arg) l h
  end.

Definition eventOf (op : Op) : Event :=
  match op with
  | OpSet l _ fieldName v => EvSet l fieldName v
  | OpCall l m arg => EvCall l (MethodName m) arg
  end.

(** Performs the write an outcome stands for. *)
Definition exec (o : Outcome Op) : M unit := fun st =>
  match o with
  | Ok op => (mkState (applyOp (heap st) op) (trace st ++ [eventOf op]), Ok ())
  | Err e => (st, Err e)
  | Panic => (st, Panic)
  end.

Definition planSet_ (structVal : Value) (i : nat) (fieldName : string)
  (v : any) : Outcome Op :=
  match structVal with
  | VElem l => Ok (OpSet l i fieldName v)
  | _ => Panic
  end.

(** The write [setField] performs, or how it fails. *)
Definition planSet (h : Heap) (structVal : Value) (fieldName : string)
  (value : any) : Outcome Op :=
  structVal ←
    (if decide (kindOf h structVal ≠ KStruct) then
       let sv := derefIfPtr h structVal in
       if decide (kindOf h sv ≠ KStruct) then Err ErrSetFieldTarget
       else Ok sv
     else Ok structVal);
  match FieldByName h structVal fieldName with
  | None => Err (ErrCannotSet fieldName)
  | Some (i, fv) =>
      if negb (CanSet structVal fv) then Err (ErrCannotSet fieldName)
      else
        match value with
        | None => planSet_ structVal i fieldName (Zero (Typ fv))
        | Some val =>
            if AssignableTo (TypeOf val) (Typ fv) then
              planSet_ structVal i fieldName (Some val)
            else if ConvertibleTo (TypeOf val) (Typ fv) then
              planSet_ structVal i fieldName (Some (Convert val (Typ fv)))
            else Err (ErrCannotAssign (TypeOf val) fieldName (Typ fv))
        end
  end.

(** The call [callOutputFunc] performs, or how it fails. *)
Definition planCall (h : Heap) (item : Value) (method : string) (arg : any)
  : Outcome Op :=
  recv ←
    (if decide (kindOf h item = KPtr) then Ok item
     else if CanAddr item then Ok (Addr item)
     else Err ErrAddressable);
  match MethodByName h recv method with
  | None => Err (ErrMethodNotFound method)
  | Some m =>
      match Params m with
      | [pt] =>
          arg' ←
            match arg with
            | None => Ok (Zero pt)
            | Some a =>
                if AssignableTo (TypeOf a) pt then Ok (Some a)
                else if ConvertibleTo (TypeOf a) pt then
                  Ok (Some (Convert a pt))
                else Err (ErrArgument (TypeOf a) pt)
            end;
          match recv with
          | VPtr l => Ok (OpCall l m arg')
          | _ => Panic
          end
      | _ => Err (ErrMethodArity method)
      end
  end.

(** The value [resolve] yields. *)
Definition resolved (result : ResultMap) (idx : nat) (ref : fieldRef)
  : Outcome any :=
  match result (Some (OfInt (Z.of_nat idx))) with
  | Some v => Ok v
  | None =>
      if hashable (fieldVal ref) then
        Ok (default None (result (fieldVal ref)))
      else Panic
  end.

(** The target of an entry is a callback. *)
Definition isCallback (target : string) : bool :=
  negb (bool_decide (target = "") || negb (strings.HasPrefix target "fn:")).

(** The name of the field an entry with a field target writes to: the
    explicit target, or the tagged field's own name. *)
Definition targetName (h : Heap) (ref : fieldRef) : Outcome string :=
  if decide (output ref = "") then
    match fieldsOf h (derefIfPtr h (itemValue ref)) !! fieldIdx ref with
    | Some f => Ok (Name f)
    | None => Panic
    end
  else Ok (output ref).

(** The write one round of the write-back loop performs. *)
Definition planEntry (h : Heap) (result : ResultMap) (idx : nat)
  (ref : fieldRef) : Outcome Op :=
  out ← resolved result idx ref;
  if isCallback (output ref) then
    planCall h (itemValue ref) (strings.TrimPrefix (output ref) "fn:") out
  else
    fieldName ← targetName h ref;
    planSet h (derefIfPtr h (itemValue ref)) fieldName out.

(** The writes of the write-back loop from position [i] on, up to the first
    entry that fails, and how the loop ends. *)
Fixpoint planRefs (h : Heap) (result : ResultMap) (i : nat)
  (rs : list fieldRef) : list Op * Outcome unit :=
  match rs with
  | [] => ([], Ok ())
  | ref :: rs' =>
      match planEntry h result i ref with
      | Ok op =>
          let '(ops, o) := planRefs h result (S i) rs' in (op :: ops, o)
      | Err e => ([], Err e)
      | Panic => ([], Panic)
      end
  end.

(** The writes of [runTask] and how it ends. *)
Definition planTask (h : Heap) (c : Combine) (task : aggTask)
  : list Op * Outcome unit :=
  match aggregateHandlers c !! name task with
  | None => ([], Err (ErrHandlerNotFound (name task)))
  | Some handler =>
      planRefs h (handler (values task) (combineCtx c)) 0 (refs task)
  end.

(** The events of [runTask]: the lookup, the invocation, the writes. *)
Definition taskTrace (h : Heap) (c : Combine) (task : aggTask) : list Event :=
  EvLookup (name task)
    :: match aggregateHandlers c !! name task with
       | None => []
       | Some _ =>
           EvHandle (name task) (values task) (combineCtx c)
             :: (eventOf <$> (planTask h c task).1)
       end.

Definition applyOps (h : Heap) (ops : list Op) : Heap := foldl applyOp h ops.

(** The tasks that sequential dispatch runs, up to and including the first
    one that fails, and how the loop over the tasks ends. *)
Fixpoint ranSeq (h : Heap) (c : Combine) (tasks : list aggTask)
  : list aggTask * Outcome unit :=
  match tasks with
  | [] => ([], Ok ())
  | t :: ts =>
      match (planTask h c t).2 with
      | Ok _ => let '(ran, o) := ranSeq h c ts in (t :: ran, o)
      | o => ([t], o)
      end
  end.

(** The writes and the events of a list of tasks run one after another. *)
Definition opsOf (h : Heap) (c : Combine) (ts : list aggTask) : list Op :=
  ts ≫= fun t => (planTask h c t).1.

Definition traceOf (h : Heap) (c : Combine) (ts : list aggTask)
  : list Event :=
  ts ≫= taskTrace h c.

(** *** Goroutines *)

(** What a goroutine has still to write, and how it will end. *)
Definition gPlan (h : Heap) (c : Combine) (g : Goroutine)
  : list Op * Outcome unit :=
  match g with
  | GStart task => planTask h c task
  | GBind result idx rest => planRefs h result idx rest
  | GDone => ([], Ok ())
  end.

Definition started (g : Goroutine) : bool :=
  match g with GStart _ => false | _ => true end.

(** The steps a goroutine may still take. *)
Definition stepsLeft (g : Goroutine) : nat :=
  match g with
  | GStart task => 2 + length (refs task)
  | GBind _ _ rest => 1 + length rest
  | GDone => 0
  end.

(** One step of a goroutine, read off the plan: the state it moves to, the
    error it ends with if it does, the writes and the events of the step. *)
Inductive Step (h : Heap) (c : Combine)
  : Goroutine -> Goroutine -> option Error -> list Op -> list Event -> Prop :=
  | Step_start task handler :
      aggregateHandlers c !! name task = Some handler ->
      Step h c (GStart task)
        (GBind (handler (values task) (combineCtx c)) 0 (refs task)) None []
        [EvLookup (name task);
         EvHandle (name task) (values task) (combineCtx c)]
  | Step_nohandler task :
      aggregateHandlers c !! name task = None ->
      Step h c (GStart task) GDone
        (Some (ErrHandlerNotFound (name task))) [] [EvLookup (name task)]
  | Step_write result idx ref rest op :
      planEntry h result idx ref = Ok op ->
      Step h c (GBind result idx (ref :: rest)) (GBind result (S idx) rest)
        None [op] [eventOf op]
  | Step_fail result idx ref rest e :
      planEntry h result idx ref = Err e ->
      Step h c (GBind result idx (ref :: rest)) GDone (Some e) [] []
  | Step_end result idx :
      Step h c (GBind result idx []) GDone None [] []
  | Step_done :
      Step h c GDone GDone None [] [].

(** The tasks of the goroutines that have not started. *)
Definition pending (pool : list Goroutine) : list aggTask :=
  omap (fun g => match g with GStart task => Some task | _ => None end) pool.

(** The invocation of a task's handler, as [handled] reports it. *)
Definition invocation (c : Combine) (task : aggTask)
  : string * list any * Ctx :=
  (name task, values task, combineCtx c).

(** The writes the goroutines of a pool have still to perform. *)
Definition remaining (h : Heap) (c : Combine) (pool : list Goroutine)
  : list (list Op) :=
  (fun g => (gPlan h c g).1) <$> pool.

(** [once.Do] after a step. *)
Definition noted (firstErr : option Error) (err : option Error)
  : option Error :=
  match err with None => firstErr | Some e => once firstErr e end.

(** A run of the pool: the steps taken, with their writes and events in
    the order in which they happened. *)
Inductive Runs (h : Heap) (c : Combine)
  : list Goroutine * option Error -> list Op -> list Event
    -> list Goroutine * option Error -> Prop :=
  | Runs_refl p : Runs h c p [] [] p
  | Runs_step pool firstErr i g g' err ops evs ops' evs' p' :
      pool !! i = Some g ->
      Step h c g g' err ops evs ->
      Runs h c (<[i := g']> pool, noted firstErr err) ops' evs' p' ->
      Runs h c (pool, firstErr) (ops ++ ops') (evs ++ evs') p'.

(** [ops] interleaves the lists [ls]: each list in its own order. *)
Inductive Interleave : list (list Op) -> list Op -> Prop :=
  | Interleave_done ls : Forall (fun l => l = []) ls -> Interleave ls []
  | Interleave_step ls i op l ops :
      ls !! i = Some (op :: l) ->
      Interleave (<[i := l]> ls) ops ->
      Interleave ls (op :: ops).

(** Two heaps of the same shape: the same records, fields, types, tags and
    methods; only the values the fields hold may differ. *)
Definition skeleton (s : StructVal) : StructVal :=
  mkStruct (withVal None <$> Fields s) (Methods s).

Definition shapeEq (h h' : Heap) : Prop := skeleton <$> h = skeleton <$> h'.

(** The field a write sets: record and field name. *)
Definition opTarget (op : Op) : option (nat * string) :=
  match op with
  | OpSet l _ fieldName _ => Some (l, fieldName)
  | OpCall _ _ _ => None
  end.

(** The resolved output target of an entry with a field target on a record
    reached through a pointer: the record, and the explicit target or else
    the tagged field's own name. *)
Definition entryTarget (h : Heap) (ref : fieldRef) : option (nat * string) :=
  match derefIfPtr h (itemValue ref) with
  | VElem l =>
      if isCallback (output ref) then None
      else match targetName h ref with
           | Ok fieldName => Some (l, fieldName)
           | _ => None
           end
  | _ => None
  end.

(** The tasks touch pairwise-disjoint record fields: two entries collected
    for different functions have field targets, and different ones. *)
Definition independent (h : Heap) (es : list (string * fieldRef)) : bool :=
  forallb (fun e1 =>
    forallb (fun e2 =>
      bool_decide (e1.1 = e2.1)
      || match entryTarget h e1.2, entryTarget h e2.2 with
         | Some a, Some b => bool_decide (a <> b)
         | _, _ => false
         end) es) es.





(** Field [f] of a record of the batch carries the directive [spec]. *)
Definition directive (h : Heap) (items : list Item) (f : StructField)
  (spec : tagSpec) : Prop :=
  exists item s,
    item ∈ items /\ record h item = Some s /\ f ∈ Fields s
    /\ parseTag (Tag f) = Some spec.

(** The errors of [setField] and [callOutputFunc] about the entry they
    bind. *)
Definition isBindingError (e : Error) : bool :=
  match e with
  | ErrCannotSet _ | ErrCannotAssign _ _ _ | ErrAddressable
  | ErrMethodNotFound _ | ErrMethodArity _ | ErrArgument _ _ => true
  | ErrElement | ErrNotRegistered _ | ErrHandlerNotFound _
  | ErrSetFieldTarget => false
  end.

(** No two entries have the same resolved output target. *)
Definition distinctTargets (h : Heap) (es : list (string * fieldRef))
  : Prop :=
  NoDup ((fun e => entryTarget h e.2) <$> es).

(** What [setField] stores in a field of type [t] for the value [out]
    when it stores something: the zero value for nil, the value itself if
    its type is assignable to [t], the converted value otherwise. *)
Definition stored (t : GoType) (out : any) : any :=
  match out with
  | None => Zero t
  | Some v => if AssignableTo (TypeOf v) t then Some v else Some (Convert v t)
  end.






(** A write sets the first field of that name of a record of the heap. *)
Definition opWf (h : Heap) (op : Op) : Prop :=
  match op with
  | OpSet l i fieldName _ =>
      exists s f, h !! l = Some s
        /\ list_find (fun f => Name f = fieldName) (Fields s) = Some (i, f)
  | OpCall _ _ _ => True
  end.

(** Two writes that may be swapped. *)
Definition opsCommute (a b : Op) : Prop :=
  forall h : Heap, applyOp (applyOp h a) b = applyOp (applyOp h b) a.

(** Writes of different lists may be swapped. *)
Definition Commuting (ls : list (list Op)) : Prop :=
  forall i j la lb a b,
    i <> j -> ls !! i = Some la -> ls !! j = Some lb ->
    a ∈ la -> b ∈ lb -> opsCommute a b.

End Vocabulary.
(** ** A concrete universe of types, for the examples *)

Module Demo.

Inductive ty := TInt | TString | TBool | TStrings | TAny.

Inductive dyn :=
  | DInt (z : Z)
  | DString (s : string)
  | DBool (b : bool)
  | DStrings (l : list string).

#[global] Instance ty_eq_dec : EqDecision ty.
Proof. solve_decision. Defined.

#[global] Instance dyn_eq_dec : EqDecision dyn.
Proof. solve_decision. Defined.

Definition typeOf (d : dyn) : ty :=
  match d with
  | DInt _ => TInt
  | DString _ => TString
  | DBool _ => TBool
  | DStrings _ => TStrings
  end.

Definition zero (t : ty) : option dyn :=
  match t with
  | TInt => Some (DInt 0)
  | TString => Some (DString "")
  | TBool => Some (DBool false)
  | TStrings => Some (DStrings [])
  | TAny => None
  end.

Definition assignableTo (t u : ty) : bool :=
  bool_decide (t = u) || bool_decide (u = TAny).

(** Besides what is assignable, an integer converts to a string. *)
Definition convertibleTo (t u : ty) : bool :=
  assignableTo t u || (bool_decide (t = TInt) && bool_decide (u = TString)).

Definition byte (z : Z) : ascii := ascii_of_N (Z.to_N z).

(** [string(rune(z))]: the UTF-8 encoding of the code point [z], U+FFFD
    for what is no code point. *)
Definition runeString (z : Z) : string :=
  strings.ofBytes
    (if decide (z < 0 ∨ 1114111 < z ∨ (55296 <= z ∧ z <= 57343))%Z then
       [byte 239; byte 191; byte 189]
     else if decide (z < 128)%Z then [byte z]
     else if decide (z < 2048)%Z then
       [byte (Z.lor 192 (Z.shiftr z 6)); byte (Z.lor 128 (Z.land z 63))]
     else if decide (z < 65536)%Z then
       [byte (Z.lor 224 (Z.shiftr z 12));
        byte (Z.lor 128 (Z.land (Z.shiftr z 6) 63));
        byte (Z.lor 128 (Z.land z 63))]
     else
       [byte (Z.lor 240 (Z.shiftr z 18));
        byte (Z.lor 128 (Z.land (Z.shiftr z 12) 63));
        byte (Z.lor 128 (Z.land (Z.shiftr z 6) 63));
        byte (Z.lor 128 (Z.land z 63))]).

Definition convert (d : dyn) (t : ty) : dyn :=
  match d, t with
  | DInt z, TString => DString (runeString z)
  | _, _ => d
  end.

(** A slice is no map key. *)
Definition hashableDyn (d : dyn) : bool :=
  match d with DStrings _ => false | _ => true end.

#[global] Instance demoReflect : Reflect := {|
  GoType := ty;
  Dyn := dyn;
  TypeOf := typeOf;
  Zero := zero;
  AssignableTo := assignableTo;
  ConvertibleTo := convertibleTo;
  Convert := convert;
  Hashable := hashableDyn;
  OfInt := DInt
|}.

(** A result map given by its entries, as a map literal. *)
Definition mapOf (entries : list (option dyn * option dyn))
  : option dyn -> option (option dyn) :=
  fun k => (fun e => e.2.2) <$> list_find (fun e => e.1 = k) entries.

(** The map with [f v] at every index of [vals]. *)
Definition byIndex (f : nat -> option dyn -> option dyn)
  (vals : list (option dyn)) : option dyn -> option (option dyn) :=
  mapOf (imap (fun i v => (Some (DInt (Z.of_nat i)), f i v)) vals).


(** *** Example records, handlers and batches *)

(** An exported field. *)
Definition fld (fieldName : string) (t : ty) (tag : string) (v : option dyn)
  : StructField :=
  mkField fieldName t tag true v.

(** The handler that returns [v] at every index. *)
Definition constant (v : dyn)
  : list (option dyn) -> gmap string (option dyn)
    -> option dyn -> option (option dyn) :=
  fun vals _ => byIndex (fun _ _ => Some v) vals.

(** The handler that returns nothing. *)
Definition silent
  : list (option dyn) -> gmap string (option dyn)
    -> option dyn -> option (option dyn) :=
  fun _ _ => mapOf [].

(** [type two struct { A int `combine:"f,NopeF"`; B int `combine:"g,NopeG"` }]:
    both directives name a target field the struct does not have. *)
Definition two : StructVal :=
  mkStruct [ fld "A" TInt "f,NopeF" (Some (DInt 1));
             fld "B" TInt "g,NopeG" (Some (DInt 2)) ] [].

Definition cFG : Combine :=
  Register "g" (constant (DInt 8)) (Register "f" (constant (DInt 7)) (New [])).

Definition stTwo : State := mkState {[ 0 := two ]} [].

(** The tasks collected from the batch [&two]. *)
Definition taskF : aggTask :=
  @mkTask demoReflect "f"
    [@mkRef demoReflect (VPtr 0) 0 (Some (DInt 1)) "NopeF"] [Some (DInt 1)].

Definition taskG : aggTask :=
  @mkTask demoReflect "g"
    [@mkRef demoReflect (VPtr 0) 1 (Some (DInt 2)) "NopeG"] [Some (DInt 2)].

(** [type named struct { Name string `combine:"f"` }] and
    [type scored struct { ID int; Score int `combine:"avg_score,fn:SetAvg"` }]. *)
Definition named : StructVal :=
  mkStruct [ fld "Name" TString "f" (Some (DString "alice")) ] [].

Definition scored : StructVal :=
  mkStruct [ fld "ID" TInt "" (Some (DInt 1));
             fld "Score" TInt "avg_score,fn:SetAvg" (Some (DInt 90)) ] [].

Definition stScored : State := mkState {[ 0 := named; 1 := scored ]} [].

(** [type obj struct { A int `combine:"agg1,A"`; B int `combine:"agg2,B"` }],
    the record of the repository's test of concurrent dispatch. *)
Definition obj : StructVal :=
  mkStruct [ fld "A" TInt "agg1,A" (Some (DInt 0));
             fld "B" TInt "agg2,B" (Some (DInt 0)) ] [].

Definition cAgg : Combine :=
  Register "agg2" (constant (DInt 2))
    (Register "agg1" (constant (DInt 1)) (New [])).

Definition stObj : State := mkState {[ 0 := obj; 1 := obj; 2 := obj ]} [].








Definition cSilent : Combine := Register "f" silent (New []).


(** [type listed struct { Tags []string `combine:"f"` }]. *)
Definition listed : StructVal :=
  mkStruct [ fld "Tags" TStrings "f" (Some (DStrings ["a"])) ] [].

Definition stListed : State := mkState {[ 0 := listed ]} [].


(** A field that is not exported. *)
Definition hid (fieldName : string) (t : ty) (tag : string) (v : option dyn)
  : StructField :=
  mkField fieldName t tag false v.

(** [type sealed struct { ID int; score int `combine:"avg_score"` }]: the
    field with the directive is not exported. *)
Definition sealed : StructVal :=
  mkStruct [ fld "ID" TInt "" (Some (DInt 1));
             hid "score" TInt "avg_score" (Some (DInt 3)) ] [].

Definition stSealed : State := mkState {[ 0 := named; 1 := sealed ]} [].







End Demo.

(** * Theorems *)

(** ** The directive parser *)

Lemma Split_free (sep : ascii) (s : string) :
  strings.free sep s = true -> strings.Split s sep = [s].
Proof.
  induction s as [|c s IH]; simpl; [done|].
  destruct (decide (c = sep)); [done|].
  intros Hs. by rewrite (IH Hs).
Qed.

Lemma Split_app (sep : ascii) (a b : string) :
  strings.free sep a = true ->
  strings.Split (a +:+ String sep b) sep = a :: strings.Split b sep.
Proof.
  induction a as [|c a IH]; simpl.
  - intros _. by rewrite decide_True.
  - destruct (decide (c = sep)); [done|].
    intros Ha. by rewrite (IH Ha).
Qed.

Lemma app_comma_nonempty (a b : string) : a +:+ String "," b <> "".
Proof. by destruct a. Qed.

Lemma comma_app (b : string) : "," +:+ b = String "," b.
Proof. reflexivity. Qed.

(** C5 (amended).  The parser splits on every comma and reads the first two
    segments only: for a comma-free [name] and [target], the directives
    [name], [name,target] and [name,target,rest] parse to the trimmed
    [name] with, respectively, no target, the trimmed [target], and again
    the trimmed [target] whatever [rest] is; parsing fails exactly when the
    trimmed [name] is empty. *)
Theorem parseTag_segments (name target rest : string) :
  strings.free "," name = true ->
  strings.free "," target = true ->
  parseTag name =
    (if decide (strings.TrimSpace name = "") then None
     else Some (mkTagSpec (strings.TrimSpace name) ""))
  /\ parseTag (name +:+ "," +:+ target) =
    (if decide (strings.TrimSpace name = "") then None
     else Some (mkTagSpec (strings.TrimSpace name) (strings.TrimSpace target)))
  /\ parseTag (name +:+ "," +:+ target +:+ "," +:+ rest) =
    (if decide (strings.TrimSpace name = "") then None
     else Some (mkTagSpec (strings.TrimSpace name) (strings.TrimSpace target))).
Proof.
  intros Hn Ht. repeat split.
  - unfold parseTag. destruct (decide (name = "")) as [->|Hne]; [done|].
    by rewrite (Split_free _ _ Hn).
  - unfold parseTag. rewrite !comma_app.
    rewrite decide_False by apply app_comma_nonempty.
    rewrite (Split_app _ _ _ Hn), (Split_free _ _ Ht). simpl.
    by destruct (decide (strings.TrimSpace name = "")).
  - unfold parseTag. rewrite !comma_app.
    rewrite decide_False by apply app_comma_nonempty.
    rewrite (Split_app _ _ _ Hn), (Split_app _ _ _ Ht). simpl.
    by destruct (decide (strings.TrimSpace name = "")).
Qed.

(** The theorem at the directive [uppercase, Name ,x]. *)
Lemma parseTag_segments_witness :
  parseTag " uppercase , Name ,x" = Some (mkTagSpec "uppercase" "Name").
Proof.
  exact (proj2 (proj2 (parseTag_segments " uppercase " " Name " "x"
                         eq_refl eq_refl))).
Defined.

(** C5 (as stated) fails: the target of [f,a,b] is [a], not the whole
    remainder [a,b] after the first comma. *)
Lemma parseTag_not_remainder :
  exists spec, parseTag "f,a,b" = Some spec /\ outputTarget spec <> "a,b".
Proof. exists (mkTagSpec "f" "a"). split; [reflexivity | discriminate]. Qed.

(** ** The write-back functions perform the planned writes *)

Section Core.
Context `{R : Reflect}.

Ltac munfold :=
  unfold mbind, mret, M_bind, M_ret, Outcome_bind, Outcome_ret,
    fail, panic, getHeap, emit, update, exec, Set_, Call, planSet_ in *;
  simpl in *.

Lemma setField_exec structVal fieldName value st :
  setField structVal fieldName value st
  = exec (planSet (heap st) structVal fieldName value) st.
Proof.
  unfold setField, planSet. munfold.
  repeat (case_match; simplify_eq/=; try done).
Qed.

Lemma callOutputFunc_exec item method arg st :
  callOutputFunc item method arg st
  = exec (planCall (heap st) item method arg) st.
Proof.
  unfold callOutputFunc, planCall. munfold.
  repeat (case_match; simplify_eq/=; try done).
Qed.

Lemma resolve_resolved result idx ref st :
  resolve result idx ref st = (st, resolved result idx ref).
Proof.
  unfold resolve, resolved. munfold.
  repeat (case_match; simplify_eq/=; try done).
Qed.

Lemma bindEntry_exec result idx ref st :
  bindEntry result idx ref st
  = exec (planEntry (heap st) result idx ref) st.
Proof.
  unfold bindEntry, planEntry.
  unfold mbind at 1. unfold M_bind. rewrite resolve_resolved.
  unfold mbind at 3. unfold Outcome_bind.
  destruct (resolved result idx ref) as [out| |]; [|done..].
  unfold isCallback.
  destruct (bool_decide (output ref = "") || negb _) eqn:Hc; simpl.
  - unfold targetName, refNameByIndex.
    unfold mbind, M_bind, Outcome_bind, getHeap at 1. simpl.
    destruct (decide (output ref = "")); simpl.
    + destruct (fieldsOf _ _ !! _); munfold; [|done].
      apply setField_exec.
    + munfold. apply setField_exec.
  - apply callOutputFunc_exec.
Qed.

End Core.

(** ** Writes keep the shape of the heap, and plans depend on it alone *)

Section Shape.
Context `{R : Reflect}.

#[global] Instance shapeEq_equiv : Equivalence shapeEq.
Proof.
  unfold shapeEq. split.
  - by intros h.
  - by intros h h' ?.
  - intros h1 h2 h3 ??. congruence.
Qed.

Lemma skeleton_withVal v f : withVal None (withVal v f) = withVal None f.
Proof. done. Qed.

Lemma skeleton_setVal i v s : skeleton (setVal i v s) = skeleton s.
Proof.
  unfold skeleton, setVal. simpl. f_equal.
  rewrite (list_fmap_alter _ _ id).
  - by apply list_alter_id.
  - by apply Forall_forall.
Qed.

Lemma skeleton_storeVals fs vs :
  withVal None <$> storeVals fs vs = withVal None <$> fs.
Proof.
  revert vs. induction fs as [|f fs IH]; intros [|v vs]; simpl; [done..|].
  by rewrite IH.
Qed.

Lemma skeleton_callMethod m arg s : skeleton (callMethod m arg s) = skeleton s.
Proof. unfold skeleton, callMethod. simpl. by rewrite skeleton_storeVals. Qed.

Lemma shapeEq_alter (h : gmap nat StructVal) l g :
  (forall s, skeleton (g s) = skeleton s) -> shapeEq (alter g l h) h.
Proof.
  intros Hg. unfold shapeEq.
  rewrite (fmap_alter _ _ id) by (intros; apply Hg).
  by apply alter_id.
Qed.

Lemma applyOp_shape h op : shapeEq (applyOp h op) h.
Proof.
  destruct op; simpl; apply shapeEq_alter; intros s.
  - apply skeleton_setVal.
  - apply skeleton_callMethod.
Qed.

Lemma applyOps_shape h ops : shapeEq (applyOps h ops) h.
Proof.
  revert h. induction ops as [|op ops IH]; intros h; [done|].
  unfold applyOps in *. simpl. rewrite IH. apply applyOp_shape.
Qed.

Lemma heap_lookup_dec (h : gmap nat StructVal) (l : nat) :
  (exists s, h !! l = Some s) \/ h !! l = None.
Proof. destruct (h !! l); eauto. Qed.

Lemma shapeEq_lookup h h' (l : nat) :
  shapeEq h h' -> skeleton <$> (h !! l) = skeleton <$> (h' !! l).
Proof. intros Hs. by rewrite <-!lookup_fmap, Hs. Qed.

Lemma kindOf_shape h h' v : shapeEq h h' -> kindOf h v = kindOf h' v.
Proof.
  intros Hs. destruct v as [l|l|s|]; simpl; try done.
  pose proof (shapeEq_lookup _ _ l Hs) as Hl.
  by destruct (h !! l), (h' !! l).
Qed.

Lemma derefIfPtr_shape h h' v : shapeEq h h' -> derefIfPtr h v = derefIfPtr h' v.
Proof. intros Hs. unfold derefIfPtr. by rewrite (kindOf_shape _ _ _ Hs). Qed.

Lemma fieldsOf_shape h h' v :
  shapeEq h h' ->
  withVal None <$> fieldsOf h v = withVal None <$> fieldsOf h' v.
Proof.
  intros Hs. unfold fieldsOf. destruct v as [l|l|s|]; simpl; try done.
  pose proof (shapeEq_lookup _ _ l Hs) as Hl.
  destruct (h !! l), (h' !! l); simplify_eq/=; try done;
    unfold skeleton in *; by simplify_eq.
Qed.

Lemma list_find_skeleton (fieldName : string) (fs : list StructField) :
  list_find (fun f => Name f = fieldName) (withVal None <$> fs)
  = prod_map id (withVal None) <$> list_find (fun f => Name f = fieldName) fs.
Proof.
  by rewrite list_find_fmap.
Qed.

Lemma FieldByName_shape h h' v fieldName :
  shapeEq h h' ->
  prod_map id (withVal None) <$> FieldByName h v fieldName
  = prod_map id (withVal None) <$> FieldByName h' v fieldName.
Proof.
  intros Hs. unfold FieldByName.
  by rewrite <-!list_find_skeleton, (fieldsOf_shape _ _ _ Hs).
Qed.

Lemma MethodByName_shape h h' v method :
  shapeEq h h' -> MethodByName h v method = MethodByName h' v method.
Proof.
  intros Hs. destruct v as [l|l|s|]; simpl; try done.
  pose proof (shapeEq_lookup _ _ l Hs) as Hl.
  destruct (h !! l) as [s|], (h' !! l) as [s'|]; simplify_eq/=; try done;
    congruence.
Qed.

Lemma planSet_shape h h' structVal fieldName value :
  shapeEq h h' ->
  planSet h structVal fieldName value = planSet h' structVal fieldName value.
Proof.
  intros Hs. unfold planSet.
  rewrite <-(derefIfPtr_shape _ _ _ Hs), <-!(kindOf_shape _ _ _ Hs).
  unfold mbind, Outcome_bind.
  match goal with |- match ?o with _ => _ end = _ => destruct o as [sv| |] end;
    [|done..].
  pose proof (FieldByName_shape _ _ sv fieldName Hs) as Hf.
  destruct (FieldByName h sv fieldName) as [[i f]|],
    (FieldByName h' sv fieldName) as [[i' f']|]; simplify_eq/=; try done.
  unfold CanSet.
  assert (Exported f = Exported f') as -> by (by destruct f, f'; simplify_eq/=).
  assert (Typ f = Typ f') as -> by (by destruct f, f'; simplify_eq/=).
  done.
Qed.

Lemma planCall_shape h h' item method arg :
  shapeEq h h' -> planCall h item method arg = planCall h' item method arg.
Proof.
  intros Hs. unfold planCall.
  rewrite <-(kindOf_shape _ _ _ Hs).
  unfold mbind, Outcome_bind.
  match goal with |- match ?o with _ => _ end = _ => destruct o as [rv| |] end;
    [|done..].
  by rewrite (MethodByName_shape _ _ _ _ Hs).
Qed.

Lemma targetName_shape h h' ref :
  shapeEq h h' -> targetName h ref = targetName h' ref.
Proof.
  intros Hs. unfold targetName. case_decide; [|done].
  rewrite <-(derefIfPtr_shape _ _ _ Hs).
  pose proof (fieldsOf_shape _ _ (derefIfPtr h (itemValue ref)) Hs) as Hf.
  apply (f_equal (fun l => l !! fieldIdx ref)) in Hf.
  rewrite !list_lookup_fmap in Hf.
  destruct (fieldsOf h _ !! _) as [f|], (fieldsOf h' _ !! _) as [f'|];
    simplify_eq/=; try done.
  by destruct f, f'; simplify_eq/=.
Qed.

Lemma planEntry_shape h h' result idx ref :
  shapeEq h h' -> planEntry h result idx ref = planEntry h' result idx ref.
Proof.
  intros Hs. unfold planEntry.
  rewrite (targetName_shape _ _ _ Hs), <-(derefIfPtr_shape _ _ _ Hs).
  unfold mbind, Outcome_bind.
  destruct (resolved result idx ref); [|done..].
  destruct (isCallback (output ref)).
  - by apply planCall_shape.
  - destruct (targetName h' ref); [|done..]. by apply planSet_shape.
Qed.

Lemma planRefs_shape h h' result i rs :
  shapeEq h h' -> planRefs h result i rs = planRefs h' result i rs.
Proof.
  intros Hs. revert i. induction rs as [|ref rs IH]; intros i; simpl; [done|].
  by rewrite (planEntry_shape _ _ _ _ _ Hs), IH.
Qed.

Lemma planTask_shape h h' c task :
  shapeEq h h' -> planTask h c task = planTask h' c task.
Proof.
  intros Hs. unfold planTask. destruct (_ !! _); [|done].
  by apply planRefs_shape.
Qed.

Lemma taskTrace_shape h h' c task :
  shapeEq h h' -> taskTrace h c task = taskTrace h' c task.
Proof.
  intros Hs. unfold taskTrace. by rewrite (planTask_shape _ _ _ _ Hs).
Qed.

Lemma ranSeq_shape h h' c tasks :
  shapeEq h h' -> ranSeq h c tasks = ranSeq h' c tasks.
Proof.
  intros Hs. induction tasks as [|t ts IH]; simpl; [done|].
  by rewrite (planTask_shape _ _ _ _ Hs), IH.
Qed.

Lemma opsOf_shape h h' c ts : shapeEq h h' -> opsOf h c ts = opsOf h' c ts.
Proof.
  intros Hs. unfold opsOf. induction ts as [|t ts IH]; [done|].
  by rewrite !bind_cons, (planTask_shape _ _ _ _ Hs), IH.
Qed.

Lemma traceOf_shape h h' c ts :
  shapeEq h h' -> traceOf h c ts = traceOf h' c ts.
Proof.
  intros Hs. unfold traceOf. induction ts as [|t ts IH]; [done|].
  by rewrite !bind_cons, (taskTrace_shape _ _ _ _ Hs), IH.
Qed.

End Shape.

(** ** What [runTask] and sequential dispatch do *)

Section Run.
Context `{R : Reflect}.

Lemma state_eta st : mkState (heap st) (trace st) = st.
Proof. by destruct st. Qed.

Lemma state_nil st : mkState (applyOps (heap st) []) (trace st ++ []) = st.
Proof. unfold applyOps. simpl. by rewrite app_nil_r, state_eta. Qed.

Lemma applyOps_cons h op ops : applyOps h (op :: ops) = applyOps (applyOp h op) ops.
Proof. done. Qed.

Lemma applyOps_app h ops ops' :
  applyOps h (ops ++ ops') = applyOps (applyOps h ops) ops'.
Proof. apply foldl_app. Qed.

Lemma forFrom_plan result i rs st :
  forFrom (bindEntry result) i rs st
  = (mkState (applyOps (heap st) (planRefs (heap st) result i rs).1)
       (trace st ++ (eventOf <$> (planRefs (heap st) result i rs).1)),
     (planRefs (heap st) result i rs).2).
Proof.
  revert i st. induction rs as [|ref rs IH]; intros i st; simpl.
  - unfold mret, M_ret. by rewrite app_nil_r, state_eta.
  - unfold mbind, M_bind. rewrite bindEntry_exec.
    destruct (planEntry (heap st) result i ref) as [op| |]; simpl.
    + rewrite IH. simpl.
      rewrite (planRefs_shape _ (heap st)) by apply applyOp_shape.
      destruct (planRefs (heap st) result (S i) rs) as [ops o]. simpl.
      by rewrite <-app_assoc.
    + by rewrite app_nil_r, state_eta.
    + by rewrite app_nil_r, state_eta.
Qed.

Lemma runTask_plan c task st :
  runTask c task st
  = (mkState (applyOps (heap st) (planTask (heap st) c task).1)
       (trace st ++ taskTrace (heap st) c task),
     (planTask (heap st) c task).2).
Proof.
  unfold runTask, invoke, planTask, taskTrace, planTask.
  unfold mbind, M_bind, emit, fail, mret, M_ret. simpl.
  destruct (aggregateHandlers c !! name task) as [handler|]; simpl; [|done].
  rewrite forFrom_plan. simpl.
  by rewrite <-!app_assoc.
Qed.

Lemma ranSeq_cons_ok h c t ts :
  (planTask h c t).2 = Ok () ->
  ranSeq h c (t :: ts) = (t :: (ranSeq h c ts).1, (ranSeq h c ts).2).
Proof. intros Ht. simpl. rewrite Ht. by destruct (ranSeq h c ts). Qed.

Lemma forEach_plan c tasks st :
  forEach (runTask c) tasks st
  = (mkState (applyOps (heap st) (opsOf (heap st) c (ranSeq (heap st) c tasks).1))
       (trace st ++ traceOf (heap st) c (ranSeq (heap st) c tasks).1),
     (ranSeq (heap st) c tasks).2).
Proof.
  revert st. induction tasks as [|t ts IH]; intros st.
  - simpl. unfold mret, M_ret. by rewrite app_nil_r, state_eta.
  - cbn [forEach ranSeq]. unfold mbind, M_bind. rewrite runTask_plan.
    unfold traceOf, opsOf.
    destruct (planTask (heap st) c t) as [ops o] eqn:Ht. cbn [fst snd].
    destruct o as [[]| |]; cbn [fst snd].
    + rewrite IH. cbn [heap trace].
      assert (shapeEq (applyOps (heap st) ops) (heap st)) as Hs
        by apply applyOps_shape.
      rewrite (ranSeq_shape _ _ _ _ Hs).
      rewrite (opsOf_shape _ _ _ _ Hs), (traceOf_shape _ _ _ _ Hs).
      destruct (ranSeq (heap st) c ts) as [ran o']. cbn [fst snd].
      unfold opsOf, traceOf. rewrite !bind_cons, Ht. cbn [fst snd].
      by rewrite applyOps_app, <-app_assoc.
    + rewrite !bind_cons, Ht. cbn [fst snd].
      by rewrite !app_nil_r.
    + rewrite !bind_cons, Ht. cbn [fst snd].
      by rewrite !app_nil_r.
Qed.

End Run.

(** ** The first pass *)

Section Collect.
Context `{R : Reflect}.

Lemma foldFrom_app {A B} (f : nat -> A -> B -> M B) i l1 l2 b st :
  foldFrom f i (l1 ++ l2) b st
  = (b' ← foldFrom f i l1 b; foldFrom f (i + length l1) l2 b') st.
Proof.
  revert i b st. induction l1 as [|x l1 IH]; intros i b st; simpl.
  - unfold mbind, M_bind, mret, M_ret. by rewrite Nat.add_0_r.
  - unfold mbind, M_bind in *. destruct (f i x b st) as [st1 [b1| |]]; try done.
    rewrite IH. by rewrite Nat.add_succ_r.
Qed.

Lemma collectField_unfold c elem fi field aggregates st :
  collectField c elem fi field aggregates st
  = match parseTag (Tag field) with
    | None => (st, Ok aggregates)
    | Some spec =>
        if Exported field then
          (mkState (heap st) (trace st ++ [EvLookup (funcName spec)]),
           if aggregateHandlers c !! funcName spec is Some _ then
             Ok (addEntry aggregates
                   (funcName spec,
                    mkRef elem fi (Val field) (outputTarget spec)))
           else Err (ErrNotRegistered (funcName spec)))
        else (st, Panic)
    end.
Proof.
  unfold collectField, Interface.
  destruct (parseTag (Tag field)) as [spec|]; [|done].
  destruct (Exported field); [|done].
  unfold mbind, M_bind, mret, M_ret, emit, fail. simpl.
  by destruct (aggregateHandlers c !! funcName spec).
Qed.

Lemma collectItem_unfold c item aggregates st :
  collectItem c item aggregates st
  = match record (heap st) item with
    | Some s => foldFrom (collectField c (ValueOf item)) 0 (Fields s) aggregates st
    | None => (st, Err ErrElement)
    end.
Proof.
  unfold collectItem, getHeap, mbind, M_bind, fail. simpl.
  destruct item as [l|s|]; simpl; try done.
  unfold fieldsOf. simpl. by destruct (heap st !! l).
Qed.

(** The fields of one element, when all of them are fine. *)
Lemma collectFields_ok c elem i fs aggregates st :
  forallb (fieldOk c) fs = true ->
  foldFrom (collectField c elem) i fs aggregates st
  = (mkState (heap st) (trace st ++ (EvLookup <$> (fieldEntries elem i fs).*1)),
     Ok (foldl addEntry aggregates (fieldEntries elem i fs))).
Proof.
  revert i aggregates st.
  induction fs as [|f fs IH]; intros i aggregates st Hok; simpl.
  - unfold mret, M_ret. by rewrite app_nil_r, state_eta.
  - simpl in Hok. apply andb_true_iff in Hok as [Hf Hfs].
    unfold mbind, M_bind. rewrite collectField_unfold.
    unfold fieldOk in Hf.
    destruct (parseTag (Tag f)) as [spec|].
    + apply andb_true_iff in Hf as [-> Hreg].
      apply bool_decide_eq_true in Hreg as [hd ->].
      rewrite (IH _ _ _ Hfs). simpl. by rewrite <-app_assoc.
    + by rewrite (IH _ _ _ Hfs).
Qed.

(** The first field that names a function without a handler stops the
    pass. *)
Lemma collectFields_unregistered c elem i fpre f fpost spec aggregates st :
  forallb (fieldOk c) fpre = true ->
  parseTag (Tag f) = Some spec ->
  Exported f = true ->
  aggregateHandlers c !! funcName spec = None ->
  foldFrom (collectField c elem) i (fpre ++ f :: fpost) aggregates st
  = (mkState (heap st)
       (trace st ++ (EvLookup <$> (fieldEntries elem i fpre).*1)
          ++ [EvLookup (funcName spec)]),
     Err (ErrNotRegistered (funcName spec))).
Proof.
  intros Hpre Hspec Hexp Hreg.
  rewrite foldFrom_app. unfold mbind, M_bind.
  rewrite (collectFields_ok _ _ _ _ _ _ Hpre). simpl.
  unfold mbind, M_bind. rewrite collectField_unfold, Hspec, Hexp, Hreg. simpl.
  by rewrite <-app_assoc.
Qed.

Lemma itemOk_record c h item :
  itemOk c h item = true ->
  exists s, record h item = Some s /\ forallb (fieldOk c) (Fields s) = true.
Proof. unfold itemOk. destruct (record h item) as [s|]; [eauto|done]. Qed.

(** The elements of a batch, when all of them are fine. *)
Lemma collectItems_ok c i items aggregates st :
  forallb (itemOk c (heap st)) items = true ->
  foldFrom (fun _ => collectItem c) i items aggregates st
  = (mkState (heap st)
       (trace st ++ (EvLookup <$> (batchEntries (heap st) items).*1)),
     Ok (foldl addEntry aggregates (batchEntries (heap st) items))).
Proof.
  revert i aggregates st.
  induction items as [|item items IH]; intros i aggregates st Hok.
  - simpl. unfold mret, M_ret. by rewrite app_nil_r, state_eta.
  - simpl in Hok. apply andb_true_iff in Hok as [Hi His].
    apply itemOk_record in Hi as (s & Hs & Hfs).
    cbn [foldFrom]. unfold mbind, M_bind.
    rewrite collectItem_unfold, Hs, (collectFields_ok _ _ _ _ _ _ Hfs).
    rewrite IH by exact His. cbn [heap trace].
    unfold batchEntries. rewrite bind_cons.
    assert (itemEntries (heap st) item
            = fieldEntries (ValueOf item) 0 (Fields s)) as ->
      by (unfold itemEntries; by rewrite Hs).
    by rewrite !fmap_app, foldl_app, <-app_assoc.
Qed.

Lemma collect_ok c items st :
  forallb (itemOk c (heap st)) items = true ->
  collect c items st
  = (mkState (heap st)
       (trace st ++ (EvLookup <$> (batchEntries (heap st) items).*1)),
     Ok (group (batchEntries (heap st) items))).
Proof. apply collectItems_ok. Qed.

(** Whatever its outcome, the pass writes nothing: the heap is as before
    and the trace grows by registry lookups only; it ends well only on
    fields that are fine. *)
Lemma collectFields_pure c elem i fs aggregates st st' r :
  foldFrom (collectField c elem) i fs aggregates st = (st', r) ->
  heap st' = heap st
  /\ (exists tr, trace st' = trace st ++ tr /\ forallb isLookup tr = true)
  /\ (forall a, r = Ok a -> forallb (fieldOk c) fs = true).
Proof.
  revert i aggregates st.
  induction fs as [|f fs IH]; intros i aggregates st; simpl.
  - unfold mret, M_ret. intros [= <- <-]. split_and!; [done| |done].
    exists []. by rewrite app_nil_r.
  - unfold mbind, M_bind. rewrite collectField_unfold.
    assert (forall b, fieldOk c f = true -> b = true ->
                 fieldOk c f && b = true) as Hand by (by intros ? -> ->).
    destruct (parseTag (Tag f)) as [spec|] eqn:Hspec.
    + destruct (Exported f) eqn:Hexp; simpl.
      * destruct (aggregateHandlers c !! funcName spec) as [hd|] eqn:Hreg.
        -- intros Hrun. apply IH in Hrun as (Hh & (tr & Htr & Hlk) & Hok).
           simpl in *. split_and!; [done| |].
           ++ exists (EvLookup (funcName spec) :: tr).
              rewrite Htr, <-app_assoc. by simpl.
           ++ intros a Ha. apply Hand; [|by apply (Hok a)].
              unfold fieldOk. by rewrite Hspec, Hexp, Hreg.
        -- intros [= <- <-]. simpl. split_and!; [done| |done].
           by exists [EvLookup (funcName spec)].
      * intros [= <- <-]. split_and!; [done| |done].
        exists []. by rewrite app_nil_r.
    + intros Hrun. apply IH in Hrun as (Hh & Htr & Hok).
      split_and!; [done..|].
      intros a Ha. apply Hand; [|by apply (Hok a)].
      unfold fieldOk. by rewrite Hspec.
Qed.

Lemma collectItems_pure c i items aggregates st st' r :
  foldFrom (fun _ => collectItem c) i items aggregates st = (st', r) ->
  heap st' = heap st
  /\ (exists tr, trace st' = trace st ++ tr /\ forallb isLookup tr = true)
  /\ (forall a, r = Ok a -> forallb (itemOk c (heap st)) items = true).
Proof.
  revert i aggregates st.
  induction items as [|item items IH]; intros i aggregates st; simpl.
  - unfold mret, M_ret. intros [= <- <-]. split_and!; [done| |done].
    exists []. by rewrite app_nil_r.
  - unfold mbind, M_bind. rewrite collectItem_unfold. unfold itemOk.
    destruct (record (heap st) item) as [s|] eqn:Hs.
    + destruct (foldFrom (collectField c (ValueOf item)) 0 (Fields s)
                  aggregates st) as [st1 r1] eqn:Hf.
      apply collectFields_pure in Hf as (Hh1 & (tr1 & Htr1 & Hlk1) & Hok1).
      destruct r1 as [a1| |].
      * intros Hrun. apply IH in Hrun as (Hh & (tr & Htr & Hlk) & Hok).
        split_and!; [congruence| |].
        -- exists (tr1 ++ tr). rewrite Htr, Htr1, <-app_assoc.
           split; [done|]. rewrite forallb_app. by rewrite Hlk1, Hlk.
        -- intros a Ha. rewrite (Hok1 a1 eq_refl). simpl.
           rewrite <-Hh1. by apply (Hok a).
      * intros [= <- <-]. split_and!; [done|by exists tr1|done].
      * intros [= <- <-]. split_and!; [done|by exists tr1|done].
    + intros [= <- <-]. split_and!; [done| |done].
      exists []. by rewrite app_nil_r.
Qed.

Lemma collect_pure c items st st' r :
  collect c items st = (st', r) ->
  heap st' = heap st
  /\ (exists tr, trace st' = trace st ++ tr /\ forallb isLookup tr = true)
  /\ (forall a, r = Ok a -> forallb (itemOk c (heap st)) items = true).
Proof. apply collectItems_pure. Qed.

(** A successful pass, in full. *)
Lemma collect_Ok_inv c items st st' aggregates :
  collect c items st = (st', Ok aggregates) ->
  forallb (itemOk c (heap st)) items = true
  /\ st' = mkState (heap st)
             (trace st ++ (EvLookup <$> (batchEntries (heap st) items).*1))
  /\ aggregates = group (batchEntries (heap st) items).
Proof.
  intros Hrun.
  destruct (collect_pure _ _ _ _ _ Hrun) as (_ & _ & Hok).
  specialize (Hok _ eq_refl).
  rewrite (collect_ok _ _ _ Hok) in Hrun. by simplify_eq.
Qed.

End Collect.

(** ** The steps of the goroutines *)

Section Goroutines.
Context `{R : Reflect}.
Variables (c : Combine) (h : gmap nat StructVal).

Lemma stepG_Step g st st' r :
  shapeEq (heap st) h ->
  stepG c g st = (st', r) ->
  (r = Panic /\ st' = st /\ gPlan h c g = ([], Panic))
  \/ exists g' err ops evs,
      Step h c g g' err ops evs
      /\ st' = mkState (applyOps (heap st) ops) (trace st ++ evs)
      /\ r = match err with None => Ok g' | Some e => Err e end.
Proof.
  intros Hs. destruct g as [task|result idx [|ref rest]|]; simpl.
  - unfold invoke, mbind, M_bind, emit, fail, mret, M_ret. simpl.
    destruct (aggregateHandlers c !! name task) as [handler|] eqn:Hreg;
      simpl; intros [= <- <-]; right.
    + eexists _, None, [], _. split; [by apply Step_start|].
      by rewrite <-app_assoc.
    + eexists _, (Some _), [], _. split; [by apply Step_nohandler|done].
  - unfold mret, M_ret. intros [= <- <-]. right.
    eexists _, None, [], []. split; [apply Step_end|].
    by rewrite state_nil.
  - unfold mbind, M_bind. rewrite bindEntry_exec.
    rewrite (planEntry_shape _ _ _ _ _ Hs).
    destruct (planEntry h result idx ref) as [op| |] eqn:Hp; simpl;
      intros [= <- <-].
    + right. eexists _, None, [op], _. split; [by apply Step_write|done].
    + right. eexists _, (Some e), [], []. split; [by apply Step_fail|].
      by rewrite state_nil.
    + by left.
  - unfold mret, M_ret. intros [= <- <-]. right.
    eexists _, None, [], []. split; [apply Step_done|].
    by rewrite state_nil.
Qed.

(** A step consumes the head of the plan and keeps its end, or is the
    failure the plan announces. *)
Lemma Step_plan g g' err ops evs :
  Step h c g g' err ops evs ->
  (gPlan h c g).1 = ops ++ (gPlan h c g').1
  /\ match err with
     | None => (gPlan h c g').2 = (gPlan h c g).2
     | Some e => gPlan h c g = ([], Err e) /\ g' = GDone
     end.
Proof.
  intros Hstep. destruct Hstep; simpl.
  - unfold planTask. by rewrite H.
  - unfold planTask. by rewrite H.
  - rewrite H. by destruct (planRefs h result (S idx) rest).
  - by rewrite H.
  - done.
  - done.
Qed.

Lemma Step_events g g' err ops evs :
  Step h c g g' err ops evs ->
  started g' = true
  /\ handled evs
     = match g, err with
       | GStart task, None => [(name task, values task, combineCtx c)]
       | _, _ => []
       end.
Proof.
  intros Hstep. destruct Hstep; simpl; try done.
  split; [done|]. by destruct op.
Qed.

Lemma Step_stepsLeft g g' err ops evs :
  Step h c g g' err ops evs -> stepsLeft g' <= pred (stepsLeft g).
Proof. intros Hstep. destruct Hstep; simpl; lia. Qed.

Lemma stepPool_Step i pool firstErr st st' r :
  shapeEq (heap st) h ->
  stepPool c i (pool, firstErr) st = (st', r) ->
  (pool !! i = None /\ st' = st /\ r = Ok (pool, firstErr))
  \/ (exists g, pool !! i = Some g /\ r = Panic /\ st' = st
                /\ gPlan h c g = ([], Panic))
  \/ (exists g g' err ops evs,
        pool !! i = Some g /\ Step h c g g' err ops evs
        /\ st' = mkState (applyOps (heap st) ops) (trace st ++ evs)
        /\ r = Ok (<[i := g']> pool, noted firstErr err)).
Proof.
  intros Hs. unfold stepPool. simpl.
  destruct (pool !! i) as [g|] eqn:Hg.
  - unfold mbind, M_bind, try.
    destruct (stepG c g st) as [st1 r1] eqn:Hstep.
    apply stepG_Step in Hstep as [(-> & -> & Hp)|
      (g' & err & ops & evs & Hstep & -> & ->)]; [| |done].
    + intros [= <- <-]. right; left. eauto.
    + right; right. exists g, g', err, ops, evs.
      destruct err as [e|]; simpl in *.
      * destruct (Step_plan _ _ _ _ _ Hstep) as [_ [_ ->]].
        unfold mret, M_ret in *. by simplify_eq.
      * unfold mret, M_ret in *. by simplify_eq.
  - unfold mret, M_ret. intros [= <- <-]. by left.
Qed.

Lemma runSched_Runs sched p st st' r :
  shapeEq (heap st) h ->
  runSched c sched p st = (st', r) ->
  exists p' ops evs,
    Runs h c p ops evs p'
    /\ st' = mkState (applyOps (heap st) ops) (trace st ++ evs)
    /\ (r = Ok p'
        /\ (forall i g, p.1 !! i = Some g ->
               stepsLeft g <= length (filter (fun j => j = i) sched) ->
               p'.1 !! i = Some GDone)
        \/ r = Panic
           /\ exists i g, p'.1 !! i = Some g /\ gPlan h c g = ([], Panic)).
Proof.
  revert p st. induction sched as [|i sched IH]; intros [pool firstErr] st Hs.
  - simpl. unfold mret, M_ret. intros [= <- <-].
    exists (pool, firstErr), [], []. split_and!; [constructor|by rewrite state_nil|].
    left. split; [done|]. intros i g Hg Hle. simpl in *.
    destruct g; simpl in *; [lia..|done].
  - cbn [runSched]. unfold mbind, M_bind.
    destruct (stepPool c i (pool, firstErr) st) as [st1 r1] eqn:Hstep.
    apply stepPool_Step in Hstep as [(Hnone & -> & ->)|
      [(g & Hg & -> & -> & Hp)|
       (g & g' & err & ops & evs & Hg & Hstep & -> & ->)]]; [| | |done].
    + intros Hrun. apply IH in Hrun as (p' & ops & evs & Hruns & -> & Hr);
        [|done].
      exists p', ops, evs. split_and!; [done..|].
      destruct Hr as [[-> Hdone]|[-> Hp]]; [left|by right].
      split; [done|]. intros j g Hg Hle. apply (Hdone j g Hg).
      rewrite filter_cons in Hle. case_decide; [|done].
      by simplify_eq/=.
    + intros [= <- <-]. exists (pool, firstErr), [], [].
      split_and!; [constructor|by rewrite state_nil|]. right. eauto.
    + intros Hrun. apply IH in Hrun as (p' & ops' & evs' & Hruns & -> & Hr).
      * exists p', (ops ++ ops'), (evs ++ evs'). split_and!.
        -- by eapply Runs_step.
        -- simpl. by rewrite applyOps_app, app_assoc.
        -- destruct Hr as [[-> Hdone]|[-> Hp]]; [left|by right].
           split; [done|]. intros j gj Hgj Hle. simpl in *.
           destruct (decide (i = j)) as [->|Hne].
           ++ apply (Hdone j g').
              ** apply list_lookup_insert_eq. by eapply lookup_lt_Some.
              ** rewrite filter_cons, decide_True in Hle by done.
                 simplify_eq. simpl in Hle.
                 pose proof (Step_stepsLeft _ _ _ _ _ Hstep). lia.
           ++ apply (Hdone j gj).
              ** by rewrite list_lookup_insert_ne.
              ** by rewrite filter_cons, decide_False in Hle.
      * simpl. etrans; [apply applyOps_shape|done].
Qed.

End Goroutines.

(** ** Runs of the pool *)

Section PoolRuns.
Context `{R : Reflect}.
Variables (c : Combine) (h : gmap nat StructVal).

Lemma Runs_length p ops evs p' :
  Runs h c p ops evs p' -> length p'.1 = length p.1.
Proof.
  induction 1 as [|pool firstErr i g g' err ops evs ops' evs' p' Hg Hstep _ IH];
    [done|].
  simpl in *. by rewrite IH, length_insert.
Qed.

Lemma Interleave_cons_nil ls ops : Interleave ls ops -> Interleave ([] :: ls) ops.
Proof.
  induction 1 as [ls Hnil|ls i op l ops Hi _ IH].
  - apply Interleave_done. by constructor.
  - by apply (Interleave_step ([] :: ls) (S i) op l).
Qed.

Lemma Interleave_concat (ls : list (list Op)) : Interleave ls (concat ls).
Proof.
  induction ls as [|l ls IH]; simpl.
  - by apply Interleave_done.
  - induction l as [|op l IHl]; simpl.
    + by apply Interleave_cons_nil.
    + by apply (Interleave_step _ 0 op l).
Qed.


Lemma remaining_insert pool i g g' :
  pool !! i = Some g ->
  remaining h c (<[i := g']> pool)
  = <[i := (gPlan h c g').1]> (remaining h c pool).
Proof. intros _. unfold remaining. by rewrite list_fmap_insert. Qed.

(** The writes of a run, followed by any interleaving of what remains,
    interleave what there was to write. *)
Lemma Runs_Interleave p ops evs p' ops'' :
  Runs h c p ops evs p' ->
  Interleave (remaining h c p'.1) ops'' ->
  Interleave (remaining h c p.1) (ops ++ ops'').
Proof.
  induction 1 as [|pool firstErr i g g' err ops evs ops' evs' p' Hg Hstep _ IH];
    [done|].
  intros Hrest. specialize (IH Hrest). simpl in *.
  rewrite (remaining_insert _ _ _ _ Hg) in IH.
  destruct (Step_plan _ _ _ _ _ _ _ Hstep) as [Hops _].
  assert (remaining h c pool !! i = Some (ops ++ (gPlan h c g').1)) as Hi.
  { unfold remaining. by rewrite list_lookup_fmap, Hg, <-Hops. }
  destruct Hstep; simpl in *;
    try (by rewrite list_insert_id in IH).
  by eapply Interleave_step.
Qed.

(** Without a noted error, every goroutine still ends as its plan said. *)
Lemma Runs_quiet p ops evs p' :
  Runs h c p ops evs p' ->
  p'.2 = None ->
  p.2 = None
  /\ forall i g, p.1 !! i = Some g ->
       exists g', p'.1 !! i = Some g' /\ (gPlan h c g').2 = (gPlan h c g).2.
Proof.
  induction 1 as [|pool firstErr i g g' err ops evs ops' evs' p' Hg Hstep _ IH];
    [by eauto|].
  intros Hnone. destruct (IH Hnone) as [Hnoted Hout]. simpl in *.
  destruct (Step_plan _ _ _ _ _ _ _ Hstep) as [_ Herr].
  destruct err as [e|]; [by destruct firstErr|]. simpl in *.
  split; [done|]. intros j gj Hj.
  destruct (decide (i = j)) as [->|Hne].
  - destruct (Hout j g') as (g'' & Hg'' & Ho).
    { apply list_lookup_insert_eq. by eapply lookup_lt_Some. }
    simplify_eq. exists g''. split; [done|congruence].
  - apply Hout. by rewrite list_lookup_insert_ne.
Qed.

(** A noted error is the error some goroutine's plan ends with. *)
Lemma Runs_noted p ops evs p' e :
  Runs h c p ops evs p' ->
  p'.2 = Some e ->
  p.2 = Some e \/ exists i g, p.1 !! i = Some g /\ (gPlan h c g).2 = Err e.
Proof.
  induction 1 as [|pool firstErr i g g' err ops evs ops' evs' p' Hg Hstep _ IH];
    [by left|].
  intros Hsome. simpl in *.
  destruct (Step_plan _ _ _ _ _ _ _ Hstep) as [_ Herr].
  destruct (IH Hsome) as [Hnoted|(j & gj & Hj & Ho)].
  - destruct firstErr as [e0|]; simpl in *.
    + left. by destruct err.
    + destruct err as [e0|]; [|done]. simpl in *. simplify_eq.
      right. exists i, g. split; [done|]. destruct Herr as [-> _]. done.
  - right. destruct (decide (i = j)) as [->|Hne].
    + rewrite list_lookup_insert_eq in Hj by (by eapply lookup_lt_Some).
      simplify_eq. exists j, g. split; [done|].
      destruct err as [e0|]; [by destruct Herr as [_ ->]|congruence].
    + rewrite list_lookup_insert_ne in Hj by done. eauto.
Qed.

(** When every plan ends well, so does every step. *)
Lemma Runs_allOk p ops evs p' :
  Runs h c p ops evs p' ->
  (forall i g, p.1 !! i = Some g -> (gPlan h c g).2 = Ok ()) ->
  p'.2 = p.2
  /\ forall i g, p'.1 !! i = Some g -> (gPlan h c g).2 = Ok ().
Proof.
  induction 1 as [|pool firstErr i g g' err ops evs ops' evs' p' Hg Hstep _ IH];
    [done|].
  intros Hok. simpl in *.
  destruct (Step_plan _ _ _ _ _ _ _ Hstep) as [_ Herr].
  pose proof (Hok _ _ Hg) as Hgok.
  destruct err as [e|]; [destruct Herr as [Hp _]; by rewrite Hp in Hgok|].
  apply IH. intros j gj Hj. simpl in *.
  destruct (decide (i = j)) as [->|Hne].
  - rewrite list_lookup_insert_eq in Hj by (by eapply lookup_lt_Some).
    simplify_eq. congruence.
  - rewrite list_lookup_insert_ne in Hj by done. eauto.
Qed.

Lemma pending_insert_started pool i g g' :
  pool !! i = Some g -> started g = true -> started g' = true ->
  pending (<[i := g']> pool) = pending pool.
Proof.
  revert i. induction pool as [|g0 pool IH]; intros [|i] Hg Hs Hs';
    simplify_eq/=; [|by rewrite IH].
  by destruct g, g'.
Qed.

Lemma pending_insert_start pool i task g' :
  pool !! i = Some (GStart task) -> started g' = true ->
  pending pool ≡ₚ task :: pending (<[i := g']> pool).
Proof.
  revert i. induction pool as [|g0 pool IH]; intros [|i] Hg Hs';
    simplify_eq/=.
  - by destruct g'.
  - destruct g0; simpl; rewrite (IH _ Hg Hs'); [apply perm_swap|done..].
Qed.

(** With every pending task registered, the handlers invoked during a run
    are those of the goroutines that started during it. *)
Lemma Runs_handled p ops evs p' :
  Runs h c p ops evs p' ->
  (forall task, task ∈ pending p.1 ->
     is_Some (aggregateHandlers c !! name task)) ->
  invocation c <$> pending p.1
  ≡ₚ handled evs ++ (invocation c <$> pending p'.1).
Proof.
  induction 1 as [|pool firstErr i g g' err ops evs ops' evs' p' Hg Hstep _ IH];
    [done|].
  intros Hreg. simpl in *. unfold handled. rewrite omap_app. fold (handled evs).
  fold (handled evs').
  destruct (Step_events _ _ _ _ _ _ _ Hstep) as [Hs' Hev].
  destruct (started g) eqn:Hsg.
  - rewrite (pending_insert_started _ _ _ _ Hg Hsg Hs') in IH.
    assert (handled evs = []) as -> by (by destruct g).
    by apply IH.
  - destruct g as [task| |]; try done.
    pose proof (pending_insert_start _ _ _ _ Hg Hs') as Hperm.
    assert (err = None) as ->.
    { inversion Hstep; simplify_eq; [done|].
      destruct (Hreg task) as [hd Hhd]; [|congruence].
      rewrite Hperm. by left. }
    rewrite Hev. simpl. rewrite Hperm. simpl. f_equiv.
    apply IH. intros t Ht. apply Hreg. rewrite Hperm. by right.
Qed.

End PoolRuns.

(** ** Concurrent dispatch and [Process] as a whole *)

Section Dispatch.
Context `{R : Reflect}.

Lemma filter_replicate_eq (n k : nat) :
  filter (fun j => j = k) (replicate n k) = replicate n k.
Proof.
  induction n as [|n IH]; [done|]. simpl.
  by rewrite filter_cons, decide_True, IH by done.
Qed.

Lemma waitFrom_enough tasks k i t :
  tasks !! i = Some t ->
  2 + length (refs t)
  <= length (filter (fun j => j = k + i) (waitFrom k tasks)).
Proof.
  revert k i. induction tasks as [|t0 ts IH]; intros k [|i] Ht;
    simplify_eq/=.
  - rewrite Nat.add_0_r.
    rewrite filter_cons, decide_True by done. simpl.
    rewrite filter_cons, decide_True by done. simpl.
    rewrite filter_app, filter_replicate_eq, length_app, length_replicate. lia.
  - specialize (IH (S k) i Ht). rewrite Nat.add_succ_r.
    repeat (rewrite filter_cons; case_decide; simpl; try lia).
    all: rewrite filter_app, length_app; simpl in IH; lia.
Qed.

(** What a concurrent dispatch amounts to: a run of the pool in which, unless
    a goroutine panicked, every goroutine reached its end, and the error
    returned is the one noted first. *)
Lemma runConcurrent_Runs c sched tasks st st' r :
  runConcurrent c sched tasks st = (st', r) ->
  exists p' ops evs,
    Runs (heap st) c (GStart <$> tasks, None) ops evs p'
    /\ st' = mkState (applyOps (heap st) ops) (trace st ++ evs)
    /\ (Forall (fun g => g = GDone) p'.1
        /\ r = match p'.2 with Some e => Err e | None => Ok () end
        \/ r = Panic
           /\ exists i g, p'.1 !! i = Some g
                /\ gPlan (heap st) c g = ([], Panic)).
Proof.
  unfold runConcurrent, mbind, M_bind.
  destruct (runSched c (sched ++ waitSched tasks) (GStart <$> tasks, None) st)
    as [st1 r1] eqn:Hrun.
  apply (runSched_Runs c (heap st)) in Hrun
    as (p' & ops & evs & Hruns & -> & Hr); [|done].
  intros Hres. exists p', ops, evs. split_and!; [done| |].
  - destruct Hr as [[-> _]|[-> _]]; [|by simplify_eq].
    destruct p'.2; unfold fail, mret, M_ret in Hres; by simplify_eq.
  - destruct Hr as [[-> Hdone]|[-> Hp]]; [left|right].
    + split.
      * apply Forall_forall. intros g Hg.
        apply list_elem_of_lookup in Hg as [i Hi].
        assert (i < length tasks) as Hlt.
        { apply lookup_lt_Some in Hi.
          rewrite (Runs_length _ _ _ _ _ _ Hruns) in Hi. simpl in Hi.
          by rewrite length_fmap in Hi. }
        apply lookup_lt_is_Some in Hlt as [t Ht].
        specialize (Hdone i (GStart t)). simpl in Hdone.
        rewrite list_lookup_fmap, Ht in Hdone. specialize (Hdone eq_refl).
        rewrite Hdone in Hi; [by simplify_eq|].
        rewrite filter_app, length_app.
        pose proof (waitFrom_enough tasks 0 i t Ht) as Hw. simpl in Hw.
        unfold waitSched. lia.
      * destruct p'.2; unfold fail, mret, M_ret in Hres; by simplify_eq.
    + split; [by simplify_eq|done].
Qed.

Lemma remaining_start h c tasks :
  remaining h c (GStart <$> tasks) = (fun t => (planTask h c t).1) <$> tasks.
Proof. unfold remaining. by rewrite <-list_fmap_compose. Qed.

Lemma remaining_done h c pool :
  Forall (fun g => g = GDone) pool ->
  Forall (fun l => l = []) (remaining h c pool).
Proof.
  unfold remaining. intros Hd. apply Forall_fmap.
  eapply Forall_impl; [done|]. by intros g ->.
Qed.

Lemma pending_start tasks : pending (GStart <$> tasks) = tasks.
Proof. induction tasks as [|t ts IH]; [done|]. csimpl. by f_equal. Qed.

Lemma pending_done pool : Forall (fun g => g = GDone) pool -> pending pool = [].
Proof. induction 1 as [|g pool -> _ IH]; [done|]. done. Qed.

(** [Process] on a batch that is not empty: the first pass, then the
    dispatch of the tasks in the order chosen. *)
Lemma Process_cons order sched c item items st :
  Process order sched c (item :: items) st
  = (aggregates ← collect c (item :: items);
     if concurrent c then runConcurrent c sched (rangeTasks order aggregates)
     else forEach (runTask c) (rangeTasks order aggregates)) st.
Proof. done. Qed.

Lemma Process_nil order sched c st : Process order sched c [] st = (st, Ok ()).
Proof. done. Qed.

End Dispatch.

(** ** The tasks built from the collected entries *)

Section Tasks.
Context `{R : Reflect}.

Lemma entriesFor_cons fn e es :
  entriesFor fn (e :: es)
  = if decide (e.1 = fn) then e.2 :: entriesFor fn es else entriesFor fn es.
Proof. unfold entriesFor. rewrite filter_cons. by case_decide. Qed.

Lemma entriesFor_nil_iff fn es : entriesFor fn es = [] <-> fn ∉ es.*1.
Proof.
  induction es as [|e es IH].
  - split; [intros _; apply not_elem_of_nil|done].
  - rewrite entriesFor_cons, fmap_cons, not_elem_of_cons.
    case_decide; [naive_solver|rewrite IH; naive_solver].
Qed.

Lemma foldl_addEntry_lookup (m : gmap string (list fieldRef)) es fn :
  foldl addEntry m es !! fn
  = if decide (entriesFor fn es = []) then m !! fn
    else Some (default [] (m !! fn) ++ entriesFor fn es).
Proof.
  revert m. induction es as [|e es IH]; intros m; [done|].
  simpl. rewrite IH, entriesFor_cons. unfold addEntry.
  destruct (decide (e.1 = fn)) as [<-|Hne].
  - rewrite lookup_insert_eq. simpl.
    case_decide as Hnil; [by rewrite Hnil|].
    by rewrite <-app_assoc.
  - by rewrite lookup_insert_ne.
Qed.

Lemma group_lookup es fn :
  group es !! fn
  = if decide (entriesFor fn es = []) then None else Some (entriesFor fn es).
Proof. unfold group. by rewrite foldl_addEntry_lookup, lookup_empty. Qed.

Lemma group_is_Some es fn : is_Some (group es !! fn) <-> fn ∈ es.*1.
Proof.
  rewrite group_lookup. case_decide as Hnil.
  - apply entriesFor_nil_iff in Hnil. split; [by intros [? ?]|done].
  - split; [|by eauto]. intros _.
    destruct (decide (fn ∈ es.*1)); [done|].
    by apply entriesFor_nil_iff in n.
Qed.

Lemma firstSeen_elem n names : n ∈ firstSeen names <-> n ∈ names.
Proof.
  induction names as [|m names IH]; [done|]. simpl.
  rewrite !elem_of_cons, list_elem_of_filter, IH.
  destruct (decide (n = m)); naive_solver.
Qed.

Lemma firstSeen_NoDup names : NoDup (firstSeen names).
Proof.
  induction names as [|m names IH]; simpl; [constructor|].
  constructor.
  - rewrite list_elem_of_filter. naive_solver.
  - by apply NoDup_filter.
Qed.

(** The keys of the collected map are the distinct function names. *)
Lemma group_keys es : (map_to_list (group es)).*1 ≡ₚ firstSeen es.*1.
Proof.
  apply NoDup_Permutation.
  - apply NoDup_fst_map_to_list.
  - apply firstSeen_NoDup.
  - intros fn. rewrite firstSeen_elem, <-group_is_Some.
    rewrite list_elem_of_fmap. split.
    + intros [[fn' rs] [-> Hin]]. apply elem_of_map_to_list in Hin. eauto.
    + intros [rs Hrs]. exists (fn, rs). split; [done|].
      by apply elem_of_map_to_list.
Qed.

Lemma rangeOrder_firstSeen order es :
  rangeOrder order (group es) <-> order ≡ₚ firstSeen es.*1.
Proof. unfold rangeOrder. by rewrite group_keys. Qed.

(** The tasks of an admissible order: one per distinct name, with all the
    entries of that name, in discovery order. *)
Lemma rangeTasks_group order es :
  order ≡ₚ firstSeen es.*1 ->
  rangeTasks order (group es)
  = (fun n => mkTask n (entriesFor n es) (fieldVal <$> entriesFor n es))
      <$> order.
Proof.
  intros Hperm.
  assert (forall n, n ∈ order -> n ∈ es.*1) as Hin.
  { intros n Hn. rewrite Hperm in Hn. by apply firstSeen_elem. }
  clear Hperm. unfold rangeTasks.
  induction order as [|n order IH]; [done|]. simpl.
  rewrite group_lookup. rewrite decide_False.
  - simpl. f_equal. apply IH. intros m Hm. apply Hin. by right.
  - rewrite entriesFor_nil_iff. intros Hn. apply Hn, Hin. by left.
Qed.

Lemma rangeTasks_names order es :
  order ≡ₚ firstSeen es.*1 -> name <$> rangeTasks order (group es) = order.
Proof.
  intros Hperm. rewrite (rangeTasks_group _ _ Hperm).
  rewrite <-list_fmap_compose. by rewrite list_fmap_id.
Qed.

Lemma rangeTasks_perm order order' es :
  order ≡ₚ firstSeen es.*1 -> order' ≡ₚ firstSeen es.*1 ->
  rangeTasks order (group es) ≡ₚ rangeTasks order' (group es).
Proof.
  intros Ho Ho'. rewrite (rangeTasks_group _ _ Ho), (rangeTasks_group _ _ Ho').
  apply fmap_Permutation. by rewrite Ho, Ho'.
Qed.

(** Every collected function name is registered. *)
Lemma fieldEntries_registered c elem i fs fn :
  forallb (fieldOk c) fs = true ->
  fn ∈ (fieldEntries elem i fs).*1 ->
  is_Some (aggregateHandlers c !! fn).
Proof.
  revert i. induction fs as [|f fs IH]; intros i Hok Hin; simpl in *.
  - by apply elem_of_nil in Hin.
  - apply andb_true_iff in Hok as [Hf Hfs]. unfold fieldOk in Hf.
    destruct (parseTag (Tag f)) as [spec|]; [|by eapply IH].
    rewrite fmap_cons in Hin. apply elem_of_cons in Hin as [->|Hin].
    + apply andb_true_iff in Hf as [_ Hreg].
      by apply bool_decide_eq_true in Hreg.
    + by eapply IH.
Qed.

Lemma batchEntries_registered c h items fn :
  forallb (itemOk c h) items = true ->
  fn ∈ (batchEntries h items).*1 ->
  is_Some (aggregateHandlers c !! fn).
Proof.
  unfold batchEntries. induction items as [|item items IH]; intros Hok Hin.
  - by apply elem_of_nil in Hin.
  - simpl in Hok. apply andb_true_iff in Hok as [Hi His].
    rewrite bind_cons, fmap_app in Hin.
    apply elem_of_app in Hin as [Hin|Hin]; [|by apply IH].
    apply itemOk_record in Hi as (s & Hs & Hfs).
    unfold itemEntries in Hin. rewrite Hs in Hin. simpl in Hin.
    by eapply fieldEntries_registered.
Qed.

End Tasks.

(** ** Dispatch, in either mode *)

Section DispatchSpec.
Context `{R : Reflect}.

Lemma handled_app tr tr' : handled (tr ++ tr') = handled tr ++ handled tr'.
Proof. apply omap_app. Qed.

Lemma handled_lookups fns : handled (EvLookup <$> fns) = [].
Proof. induction fns as [|fn fns IH]; [done|]. by csimpl. Qed.

Lemma handled_writes ops : handled (eventOf <$> ops) = [].
Proof. induction ops as [|[] ops IH]; [done|by csimpl..]. Qed.

Lemma handled_taskTrace h c task :
  is_Some (aggregateHandlers c !! name task) ->
  handled (taskTrace h c task) = [invocation c task].
Proof.
  intros [hd Hhd]. unfold taskTrace. rewrite Hhd. simpl.
  by rewrite handled_writes.
Qed.

Lemma handled_traceOf h c ts :
  (forall t, t ∈ ts -> is_Some (aggregateHandlers c !! name t)) ->
  handled (traceOf h c ts) = invocation c <$> ts.
Proof.
  unfold traceOf. induction ts as [|t ts IH]; intros Hreg; [done|].
  rewrite bind_cons, handled_app, handled_taskTrace, IH.
  - done.
  - intros t' Ht'. apply Hreg. by right.
  - apply Hreg. by left.
Qed.

(** How the sequential loop ends. *)
Lemma ranSeq_split h c ts :
  exists rest,
    ts = (ranSeq h c ts).1 ++ rest
    /\ ((ranSeq h c ts).2 = Ok () -> rest = []
        /\ Forall (fun t => (planTask h c t).2 = Ok ()) ts)
    /\ ((ranSeq h c ts).2 <> Ok () ->
        exists pre t, (ranSeq h c ts).1 = pre ++ [t]
          /\ Forall (fun t => (planTask h c t).2 = Ok ()) pre
          /\ (planTask h c t).2 = (ranSeq h c ts).2).
Proof.
  induction ts as [|t ts (rest & Hts & Hok & Hbad)].
  - exists []. simpl. split_and!; [done..|]. by intros [].
  - simpl. destruct (planTask h c t).2 as [[]| |] eqn:Ht.
    + destruct (ranSeq h c ts) as [ran o]. simpl in *.
      exists rest. split_and!.
      * by f_equal.
      * intros Ho. destruct (Hok Ho) as [-> Hall]. split; [done|].
        by constructor.
      * intros Ho. destruct (Hbad Ho) as (pre & t' & -> & Hpre & Ht').
        exists (t :: pre), t'. split_and!; [done| |done]. by constructor.
    + exists ts. simpl. split_and!; [done..|].
      intros _. exists [], t. by split_and!.
    + exists ts. simpl. split_and!; [done..|].
      intros _. exists [], t. by split_and!.
Qed.

Lemma opsOf_concat h c ts :
  opsOf h c ts = concat ((fun t => (planTask h c t).1) <$> ts).
Proof.
  unfold opsOf. induction ts as [|t ts IH]; [done|].
  rewrite bind_cons, fmap_cons. simpl. by rewrite IH.
Qed.

(** What the dispatch of the tasks does to the state, in either mode: the
    writes applied are those of the tasks' plans, each task's in its own
    order; the dispatch ends well only if every task does, and the error
    or panic it ends with is that of some task. *)
Lemma dispatch_spec c sched tasks st st' r :
  (if concurrent c then runConcurrent c sched tasks
   else forEach (runTask c) tasks) st = (st', r) ->
  (forall t, t ∈ tasks -> is_Some (aggregateHandlers c !! name t)) ->
  exists ops evs,
    st' = mkState (applyOps (heap st) ops) (trace st ++ evs)
    /\ (exists rest,
          Interleave ((fun t => (planTask (heap st) c t).1) <$> tasks)
            (ops ++ rest)
          /\ (r = Ok () \/ (concurrent c = true /\ r <> Panic) -> rest = []))
    /\ (r = Ok () ->
        Forall (fun t => (planTask (heap st) c t).2 = Ok ()) tasks
        /\ handled evs ≡ₚ invocation c <$> tasks)
    /\ (forall e, r = Err e ->
          exists t, t ∈ tasks /\ (planTask (heap st) c t).2 = Err e)
    /\ (r = Panic ->
          exists t, t ∈ tasks /\ (planTask (heap st) c t).2 = Panic).
Proof.
  intros Hrun Hreg. destruct (concurrent c) eqn:Hmode.
  - apply runConcurrent_Runs in Hrun
      as (p' & ops & evs & Hruns & -> & Hr).
    exists ops, evs. split; [done|].
    pose proof (Runs_Interleave _ _ _ _ _ _ _ Hruns
                  (Interleave_concat _)) as Hil.
    simpl in Hil. rewrite remaining_start in Hil.
    assert (forall i g, p'.1 !! i = Some g ->
              exists t, tasks !! i = Some t
                /\ (g = GDone \/ (gPlan (heap st) c g).2
                                 = (planTask (heap st) c t).2)) as Hout.
    { clear -Hruns. intros i g Hg.
      remember (GStart <$> tasks, None) as p eqn:Hp.
      assert (forall j gj, p.1 !! j = Some gj ->
                exists t, tasks !! j = Some t
                  /\ (gj = GDone \/ (gPlan (heap st) c gj).2
                                      = (planTask (heap st) c t).2)) as Hinv.
      { subst p. simpl. intros j gj Hj.
        rewrite list_lookup_fmap in Hj.
        destruct (tasks !! j) as [t|]; simplify_eq/=. eauto. }
      clear Hp. revert i g Hg.
      induction Hruns as [|pool firstErr k g0 g' err ops evs ops' evs' p'
                            Hg0 Hstep _ IH]; [done|].
      apply IH. intros j gj Hj. simpl in *.
      destruct (decide (k = j)) as [->|Hne].
      - rewrite list_lookup_insert_eq in Hj by (by eapply lookup_lt_Some).
        simplify_eq. destruct (Hinv _ _ Hg0) as (t & Ht & Ho).
        exists t. split; [done|].
        destruct (Step_plan _ _ _ _ _ _ _ Hstep) as [_ Herr].
        destruct err as [e|]; [left; by destruct Herr|].
        destruct Ho as [->|Ho]; [left; by inversion Hstep|right; congruence].
      - rewrite list_lookup_insert_ne in Hj by done. eauto. }
    destruct Hr as [[Hdone ->]|[-> (i & g & Hg & Hp)]].
    + split_and!.
      * exists (concat (remaining (heap st) c p'.1)). split; [done|].
        intros _. pose proof (remaining_done (heap st) c _ Hdone) as Hnil.
        clear -Hnil. induction Hnil as [|l ls -> _ IH]; [done|]. done.
      * destruct p'.2 as [e|] eqn:Hfe; [done|]. intros _.
        destruct (Runs_quiet _ _ _ _ _ _ Hruns Hfe) as [_ Hq]. split.
        -- apply Forall_forall. intros t Ht.
           apply list_elem_of_lookup in Ht as [j Hj].
           destruct (Hq j (GStart t)) as (g' & Hg' & Ho).
           { simpl. by rewrite list_lookup_fmap, Hj. }
           rewrite Forall_forall in Hdone.
           rewrite (Hdone g') in Ho by (by eapply list_elem_of_lookup_2).
           done.
        -- pose proof (Runs_handled _ _ _ _ _ _ Hruns) as Hh. simpl in Hh.
           rewrite pending_start, (pending_done _ Hdone) in Hh.
           rewrite app_nil_r in Hh. symmetry. by apply Hh.
      * intros e He. destruct p'.2 as [e'|] eqn:Hfe; simplify_eq.
        destruct (Runs_noted _ _ _ _ _ _ _ Hruns Hfe)
          as [?|(j & gj & Hj & Ho)]; [done|].
        simpl in Hj. rewrite list_lookup_fmap in Hj.
        destruct (tasks !! j) as [t|] eqn:Ht; simplify_eq/=.
        exists t. split; [by eapply list_elem_of_lookup_2|done].
      * by destruct p'.2.
    + split_and!; [|done..|].
      * exists (concat (remaining (heap st) c p'.1)). split; [done|].
        by intros [?|[_ ?]].
      * intros _. destruct (Hout _ _ Hg) as (t & Ht & [->|Ho]); [done|].
        exists t. split; [by eapply list_elem_of_lookup_2|].
        by rewrite <-Ho, Hp.
  - rewrite forEach_plan in Hrun. simplify_eq.
    eexists _, _. split; [done|].
    destruct (ranSeq_split (heap st) c tasks) as (rest & Hts & Hok & Hbad).
    split_and!.
    + exists (opsOf (heap st) c rest). split.
      * rewrite !opsOf_concat, <-concat_app, <-fmap_app, <-Hts.
        apply Interleave_concat.
      * intros [Ho|[? _]]; [|done]. by destruct (Hok Ho) as [-> _].
    + intros Ho. destruct (Hok Ho) as [-> Hall]. split; [done|].
      rewrite app_nil_r in Hts. rewrite <-Hts.
      rewrite handled_traceOf by done. done.
    + intros e He. destruct Hbad as (pre & t & Hran & _ & Ht);
        [by rewrite He|].
      exists t. split; [|congruence].
      rewrite Hts, Hran. set_solver.
    + intros He. destruct Hbad as (pre & t & Hran & _ & Ht);
        [by rewrite He|].
      exists t. split; [|congruence].
      rewrite Hts, Hran. set_solver.
Qed.

End DispatchSpec.

(** ** The empty batch and the unregistered handler *)

Section Abort.
Context `{R : Reflect}.

(** C10.  On the empty batch [Process] returns success at once: the state
    is returned as it was, so no record is mutated and the trace gains no
    event (no registry lookup, no handler invocation, no write), whatever
    handlers are registered and in either mode. *)
Theorem Process_empty (order : list string) (sched : list nat) (c : Combine)
  (st : State) :
  Process order sched c [] st = (st, Ok ()).
Proof. reflexivity. Qed.

(** C1 (amended).  When every element before [item] passes collection, and
    so does every field of [item] before [f], and the exported field [f]
    carries a directive whose function has no handler, then [Process]
    returns the error naming that function, whatever comes after; the heap
    is as before and the trace has gained registry lookups only: no handler
    was invoked, no field written, no callback called. *)
Theorem unregistered_handler_aborts (order : list string) (sched : list nat)
  (c : Combine) (pre : list Item) (item : Item) (post : list Item)
  (s : StructVal) (fpre : list StructField) (f : StructField)
  (fpost : list StructField) (spec : tagSpec) (st : State) :
  forallb (itemOk c (heap st)) pre = true ->
  record (heap st) item = Some s ->
  Fields s = fpre ++ f :: fpost ->
  forallb (fieldOk c) fpre = true ->
  parseTag (Tag f) = Some spec ->
  Exported f = true ->
  aggregateHandlers c !! funcName spec = None ->
  exists tr,
    Process order sched c (pre ++ item :: post) st
    = (mkState (heap st) (trace st ++ tr),
       Err (ErrNotRegistered (funcName spec)))
    /\ forallb isLookup tr = true.
Proof.
  intros Hpre Hs Hfs Hfpre Hspec Hexp Hreg.
  unfold Process. rewrite decide_False by (rewrite length_app; simpl; lia).
  unfold collect. unfold mbind at 1. unfold M_bind.
  rewrite foldFrom_app. unfold mbind at 1. unfold M_bind.
  rewrite (collectItems_ok _ _ _ _ _ Hpre).
  cbn [foldFrom]. unfold mbind at 1. unfold M_bind.
  rewrite collectItem_unfold. cbn [heap]. rewrite Hs, Hfs.
  rewrite (collectFields_unregistered _ _ _ _ _ _ _ _ _ Hfpre Hspec Hexp Hreg).
  cbn [heap trace]. eexists. split.
  - rewrite <-app_assoc. reflexivity.
  - rewrite !forallb_app. simpl. rewrite !andb_true_r.
    apply andb_true_iff. split; apply forallb_forall; intros ev Hev;
      apply in_map_iff in Hev as (? & <- & _); done.
Qed.

End Abort.

(** ** Handler invocations and the sequential loop *)

Section Invocations.
Context `{R : Reflect}.

Lemma filter_none {A} (P : A -> Prop) `{forall x, Decision (P x)} (l : list A) :
  Forall (fun x => ~ P x) l -> filter P l = [].
Proof.
  induction 1 as [|x l Hx _ IH]; [done|].
  by rewrite filter_cons, decide_False.
Qed.

Lemma filter_invocation c es order fn :
  NoDup order -> fn ∈ order ->
  filter (fun x : string * list any * gmap string any => x.1.1 = fn)
    (invocation c
       <$> ((fun n => mkTask n (entriesFor n es) (fieldVal <$> entriesFor n es))
              <$> order))
  = [(fn, fieldVal <$> entriesFor fn es, combineCtx c)].
Proof.
  induction 1 as [|n order Hn Hnd IH]; [by intros ?%elem_of_nil|].
  intros Hin. rewrite !fmap_cons, filter_cons. unfold invocation at 1. simpl.
  destruct (decide (n = fn)) as [->|Hne].
  - f_equal. apply filter_none. apply Forall_forall.
    intros x Hx. apply list_elem_of_fmap in Hx as (t & -> & Ht).
    apply list_elem_of_fmap in Ht as (m & -> & Hm). simpl. congruence.
  - apply IH. apply elem_of_cons in Hin as [->|]; done.
Qed.

Lemma tasks_registered c h items order t :
  forallb (itemOk c h) items = true ->
  order ≡ₚ firstSeen (batchEntries h items).*1 ->
  t ∈ rangeTasks order (group (batchEntries h items)) ->
  is_Some (aggregateHandlers c !! name t).
Proof.
  intros Hok Hperm Ht. eapply batchEntries_registered; [done|].
  apply firstSeen_elem. rewrite <-Hperm.
  rewrite <-(rangeTasks_names _ _ Hperm).
  apply list_elem_of_fmap. eauto.
Qed.

(** C2 (amended).  Whenever [Process] returns success, in either mode and
    whatever order and interleaving the runtime chose, the handler of every
    function name occurring in a directive of the batch was invoked exactly
    once during the call, on the list of the field values collected for that
    name across the whole batch in discovery order, and on the engine's
    context.  (Success is needed: see [aborted_batch_skips_handlers].) *)
Theorem handlers_invoked_once (order : list string) (sched : list nat)
  (c : Combine) (items : list Item) (st st' : State) :
  orderOk c items st order ->
  Process order sched c items st = (st', Ok ()) ->
  exists tr,
    trace st' = trace st ++ tr
    /\ forall fn, fn ∈ (batchEntries (heap st) items).*1 ->
         handledFor fn tr
         = [(fn, collected (heap st) items fn, combineCtx c)].
Proof.
  intros Hord Hrun. destruct items as [|item items].
  - rewrite Process_nil in Hrun. simplify_eq.
    exists []. split; [by rewrite app_nil_r|].
    by intros fn ?%elem_of_nil.
  - rewrite Process_cons in Hrun. unfold mbind, M_bind in Hrun.
    destruct (collect c (item :: items) st) as [st1 [aggs| |]] eqn:Hc;
      [|done..].
    specialize (Hord _ _ Hc).
    apply collect_Ok_inv in Hc as (Hok & -> & ->).
    apply rangeOrder_firstSeen in Hord.
    apply dispatch_spec in Hrun as (ops & evs & -> & _ & HOk & _);
      [|intros t Ht; by eapply tasks_registered].
    destruct (HOk eq_refl) as [_ Hh]. simpl in *.
    eexists. split; [by rewrite <-app_assoc|].
    intros fn Hfn. unfold handledFor.
    rewrite handled_app, handled_lookups. simpl.
    apply Permutation_singleton_r.
    rewrite Hh, (rangeTasks_group _ _ Hord).
    rewrite filter_invocation; [done| |].
    + rewrite Hord. apply firstSeen_NoDup.
    + rewrite Hord. by apply firstSeen_elem.
Qed.

Lemma forEach_app {A} (f : A -> M unit) l1 l2 st :
  forEach f (l1 ++ l2) st = (forEach f l1;; forEach f l2) st.
Proof.
  revert st. induction l1 as [|x l1 IH]; intros st; simpl.
  - done.
  - unfold mbind, M_bind in *. destruct (f x st) as [st1 [[]| |]]; try done.
Qed.

(** C4 (amended).  In sequential mode the tasks are run one after another
    in the order in which the runtime enumerates the map of collected tasks:
    [order], some permutation of the distinct function names, which need not
    be the order of discovery.  When the tasks before [task] succeed and
    [task] fails with [e], [Process] returns [e] in the state [task] left:
    the tasks after it are not run, and the handlers invoked during the call
    are those of the tasks up to [task], in that order. *)
Theorem sequential_abort (order : list string) (sched : list nat)
  (c : Combine) (items : list Item) (st st1 st2 st3 : State)
  (aggregates : gmap string (list fieldRef))
  (pre : list aggTask) (task : aggTask) (post : list aggTask) (e : Error) :
  concurrent c = false ->
  items <> [] ->
  collect c items st = (st1, Ok aggregates) ->
  rangeOrder order aggregates ->
  rangeTasks order aggregates = pre ++ task :: post ->
  forEach (runTask c) pre st1 = (st2, Ok ()) ->
  runTask c task st2 = (st3, Err e) ->
  Process order sched c items st = (st3, Err e)
  /\ name <$> (pre ++ task :: post) = order
  /\ handled (trace st3)
     = handled (trace st) ++ (invocation c <$> (pre ++ [task])).
Proof.
  intros Hseq Hne Hc Hord Htasks Hpre Htask.
  destruct items as [|item items]; [done|].
  split_and!.
  - rewrite Process_cons. unfold mbind, M_bind. rewrite Hc, Hseq, Htasks.
    rewrite forEach_app. unfold mbind, M_bind. rewrite Hpre. simpl.
    unfold mbind, M_bind. by rewrite Htask.
  - apply collect_Ok_inv in Hc as (Hok & -> & ->).
    apply rangeOrder_firstSeen in Hord.
    by rewrite <-Htasks, rangeTasks_names.
  - apply collect_Ok_inv in Hc as (Hok & -> & ->).
    apply rangeOrder_firstSeen in Hord.
    assert (forall t, t ∈ pre ++ task :: post ->
              is_Some (aggregateHandlers c !! name t)) as Hreg.
    { intros t Ht. rewrite <-Htasks in Ht. by eapply tasks_registered. }
    rewrite forEach_plan in Hpre. simpl in Hpre.
    destruct (ranSeq_split (heap st) c pre) as (rest & Hts & HOk & _).
    injection Hpre as <- Ho. destruct (HOk Ho) as [-> _].
    rewrite app_nil_r in Hts. rewrite <-Hts in Htask.
    rewrite runTask_plan in Htask. injection Htask as <- _.
    cbn [trace heap]. rewrite !handled_app, handled_lookups.
    rewrite (taskTrace_shape _ (heap st)) by apply applyOps_shape.
    rewrite handled_traceOf, handled_taskTrace, fmap_app.
    + by rewrite app_nil_r, <-app_assoc.
    + apply Hreg. set_solver.
    + intros t Ht. apply Hreg. set_solver.
Qed.

End Invocations.

(** ** Writes to different fields commute *)

Section Independence.
Context `{R : Reflect}.

Lemma planSet_Ok h structVal fieldName value op :
  planSet h structVal fieldName value = Ok op ->
  exists l i v s f,
    op = OpSet l i fieldName v
    /\ derefIfPtr h structVal = VElem l
    /\ h !! l = Some s
    /\ list_find (fun f => Name f = fieldName) (Fields s) = Some (i, f)
    /\ Exported f = true
    /\ v = match value with
           | None => Zero (Typ f)
           | Some val =>
               if AssignableTo (TypeOf val) (Typ f) then Some val
               else Some (Convert val (Typ f))
           end.
Proof.
  unfold planSet, FieldByName, CanSet, planSet_, fieldsOf, derefIfPtr,
    mbind, Outcome_bind.
  destruct structVal as [l|l|s|]; simpl; try done.
  - destruct (heap_lookup_dec h l) as [[s Hs]|Hs]; rewrite Hs; simpl;
      rewrite ?Hs; simpl; [|done].
    destruct (list_find (fun f => Name f = fieldName) (Fields s))
      as [[i f]|] eqn:Hf; [|done].
    destruct (Exported f) eqn:Hexp; simpl; [|done].
    destruct value as [val|].
    + destruct (AssignableTo (TypeOf val) (Typ f)) eqn:Ha.
      { intros [= <-]. eexists l, i, _, s, f. by rewrite Ha. }
      destruct (ConvertibleTo _ _); [|done].
      intros [= <-]. eexists l, i, _, s, f. by rewrite Ha.
    + intros [= <-]. by eexists l, i, _, s, f.
  - destruct (heap_lookup_dec h l) as [[s Hs]|Hs]; rewrite Hs; simpl;
      rewrite ?Hs; simpl; [|done].
    destruct (list_find (fun f => Name f = fieldName) (Fields s))
      as [[i f]|] eqn:Hf; [|done].
    destruct (Exported f) eqn:Hexp; simpl; [|done].
    destruct value as [val|].
    + destruct (AssignableTo (TypeOf val) (Typ f)) eqn:Ha.
      { intros [= <-]. eexists l, i, _, s, f. by rewrite Ha. }
      destruct (ConvertibleTo _ _); [|done].
      intros [= <-]. eexists l, i, _, s, f. by rewrite Ha.
    + intros [= <-]. by eexists l, i, _, s, f.
  - destruct (list_find (fun f => Name f = fieldName) (Fields s))
      as [[i f]|] eqn:Hf; done.
Qed.

Lemma derefIfPtr_idemp h v : derefIfPtr h (derefIfPtr h v) = derefIfPtr h v.
Proof.
  unfold derefIfPtr. destruct v as [l|l|s|]; simpl; try done;
    repeat (case_match; simpl; try done).
Qed.

(** An entry with a field target writes the field it targets. *)
Lemma planEntry_OpSet h result idx ref op :
  planEntry h result idx ref = Ok op ->
  isCallback (output ref) = false ->
  exists l i fieldName v,
    op = OpSet l i fieldName v
    /\ entryTarget h ref = Some (l, fieldName)
    /\ opWf h op.
Proof.
  unfold planEntry, entryTarget, mbind, Outcome_bind. intros Hp Hcb.
  rewrite Hcb in *.
  destruct (resolved result idx ref) as [out| |]; [|done..].
  destruct (targetName h ref) as [fieldName| |]; [|done..].
  apply planSet_Ok in Hp as (l & i & v & s & f & -> & Hd & Hs & Hf & _).
  rewrite derefIfPtr_idemp in Hd. rewrite Hd.
  exists l, i, fieldName, v. split_and!; [done..|]. simpl. eauto.
Qed.

Lemma entryTarget_Some h ref tgt :
  entryTarget h ref = Some tgt -> isCallback (output ref) = false.
Proof.
  unfold entryTarget. destruct (derefIfPtr h (itemValue ref)); try done.
  by destruct (isCallback (output ref)).
Qed.

Lemma planRefs_elem h result i rs op :
  op ∈ (planRefs h result i rs).1 ->
  exists idx ref, ref ∈ rs /\ planEntry h result idx ref = Ok op.
Proof.
  revert i. induction rs as [|ref rs IH]; intros i; simpl.
  - by intros ?%elem_of_nil.
  - destruct (planEntry h result i ref) as [op'| |] eqn:Hp;
      [|by intros ?%elem_of_nil..].
    destruct (planRefs h result (S i) rs) as [ops o] eqn:Hrs. simpl.
    intros [->|Hin]%elem_of_cons.
    + exists i, ref. split; [by left|done].
    + specialize (IH (S i)). rewrite Hrs in IH.
      destruct (IH Hin) as (idx & ref' & Hin' & Hp').
      exists idx, ref'. split; [by right|done].
Qed.

Lemma planTask_elem h c t op :
  op ∈ (planTask h c t).1 ->
  exists result idx ref, ref ∈ refs t /\ planEntry h result idx ref = Ok op.
Proof.
  unfold planTask. destruct (aggregateHandlers c !! name t) as [hd|].
  - intros (idx & ref & ? & ?)%planRefs_elem. eauto.
  - by intros ?%elem_of_nil.
Qed.

Lemma setVal_commute i j v w s :
  i <> j -> setVal j w (setVal i v s) = setVal i v (setVal j w s).
Proof.
  intros Hne. unfold setVal. simpl. f_equal. by apply list_alter_alter_ne.
Qed.

(** Writes to different fields may be swapped. *)
Lemma OpSet_commute h0 a b ta tb :
  opWf h0 a -> opWf h0 b ->
  opTarget a = Some ta -> opTarget b = Some tb -> ta <> tb ->
  opsCommute a b.
Proof.
  destruct a as [l i n v|], b as [l' i' n' v'|]; simpl; try done.
  intros (s & f & Hs & Hf) (s' & f' & Hs' & Hf') [= <-] [= <-] Hne h.
  simpl. destruct (decide (l = l')) as [<-|Hl].
  - simplify_eq. rewrite !alter_alter_eq.
    apply alter_ext. intros s0 _. simpl.
    apply setVal_commute. intros <-.
    apply list_find_Some in Hf as (Hi & Hn & _).
    apply list_find_Some in Hf' as (Hi' & Hn' & _).
    by simplify_eq.
  - by apply alter_alter_ne.
Qed.

Lemma independent_spec h es fn1 r1 fn2 r2 :
  independent h es = true ->
  (fn1, r1) ∈ es -> (fn2, r2) ∈ es -> fn1 <> fn2 ->
  exists a b, entryTarget h r1 = Some a /\ entryTarget h r2 = Some b /\ a <> b.
Proof.
  unfold independent. intros Hind H1 H2 Hne.
  rewrite forallb_forall in Hind.
  apply list_elem_of_In in H1, H2.
  specialize (Hind _ H1). rewrite forallb_forall in Hind.
  specialize (Hind _ H2). simpl in Hind.
  rewrite bool_decide_eq_false_2 in Hind by done. simpl in Hind.
  destruct (entryTarget h r1) as [a|], (entryTarget h r2) as [b|]; try done.
  apply bool_decide_eq_true in Hind. eauto.
Qed.

Lemma entriesFor_elem fn es ref : ref ∈ entriesFor fn es <-> (fn, ref) ∈ es.
Proof.
  unfold entriesFor. rewrite list_elem_of_fmap. split.
  - intros ([fn' r] & -> & Hin). apply list_elem_of_filter in Hin as [Hfn Hin].
    simpl in *. by subst.
  - intros Hin. exists (fn, ref). split; [done|].
    by apply list_elem_of_filter.
Qed.

(** The writes of two tasks of an independent batch may be swapped. *)
Lemma independent_commute h c es n1 n2 a b :
  independent h es = true -> n1 <> n2 ->
  a ∈ (planTask h c (mkTask n1 (entriesFor n1 es)
                       (fieldVal <$> entriesFor n1 es))).1 ->
  b ∈ (planTask h c (mkTask n2 (entriesFor n2 es)
                       (fieldVal <$> entriesFor n2 es))).1 ->
  opsCommute a b.
Proof.
  intros Hind Hne (ra & ia & refa & Hra & Hpa)%planTask_elem
    (rb & ib & refb & Hrb & Hpb)%planTask_elem.
  simpl in *. apply entriesFor_elem in Hra, Hrb.
  destruct (independent_spec _ _ _ _ _ _ Hind Hra Hrb Hne)
    as (ta & tb & Hta & Htb & Hab).
  apply planEntry_OpSet in Hpa as (la & ja & na & va & -> & Hta' & Hwa);
    [|by eapply entryTarget_Some].
  apply planEntry_OpSet in Hpb as (lb & jb & nb & vb & -> & Htb' & Hwb);
    [|by eapply entryTarget_Some].
  eapply OpSet_commute; [done..| | |done]; simpl; congruence.
Qed.

Lemma applyOps_commute_left h op ops :
  (forall a, a ∈ ops -> opsCommute op a) ->
  applyOps (applyOp h op) ops = applyOp (applyOps h ops) op.
Proof.
  revert h. induction ops as [|a ops IH]; intros h Hc; [done|].
  rewrite !applyOps_cons. rewrite (Hc a) by (by left).
  apply IH. intros a' Ha'. apply Hc. by right.
Qed.

Lemma applyOps_blocks_commute h xs ys :
  (forall a b, a ∈ xs -> b ∈ ys -> opsCommute a b) ->
  applyOps h (xs ++ ys) = applyOps h (ys ++ xs).
Proof.
  revert h. induction xs as [|x xs IH]; intros h Hc.
  - by rewrite app_nil_r.
  - rewrite <-app_comm_cons, applyOps_cons.
    rewrite IH by (intros; apply Hc; set_solver).
    rewrite !applyOps_app, applyOps_cons.
    rewrite applyOps_commute_left; [done|].
    intros b Hb. apply Hc; set_solver.
Qed.

Lemma Commuting_insert ls i op l :
  Commuting ls -> ls !! i = Some (op :: l) -> Commuting (<[i := l]> ls).
Proof.
  intros Hc Hi j k la lb a b Hjk Hj Hk Ha Hb.
  assert (i < length ls) as Hlt by (by eapply lookup_lt_Some).
  destruct (decide (i = j)) as [<-|Hij]; destruct (decide (i = k)) as [<-|Hik];
    try done.
  - rewrite list_lookup_insert_eq in Hj by done.
    rewrite list_lookup_insert_ne in Hk by done. simplify_eq.
    eapply (Hc i k); [done..| |done]. by right.
  - rewrite list_lookup_insert_ne in Hj by done.
    rewrite list_lookup_insert_eq in Hk by done. simplify_eq.
    eapply (Hc j i); [done..|]. by right.
  - rewrite list_lookup_insert_ne in Hj, Hk by done.
    by eapply (Hc j k).
Qed.

Lemma concat_all_nil (ls : list (list Op)) :
  Forall (fun l => l = []) ls -> concat ls = [].
Proof. induction 1 as [|l ls -> _ IH]; [done|]. done. Qed.

(** Any interleaving of commuting lists has the effect of running the
    lists one after another. *)
Lemma Interleave_applyOps ls ops :
  Interleave ls ops -> Commuting ls ->
  forall h, applyOps h ops = applyOps h (concat ls).
Proof.
  induction 1 as [ls Hnil|ls i op l ops Hi _ IH]; intros Hc h.
  - by rewrite concat_all_nil.
  - rewrite applyOps_cons, IH by (by eapply Commuting_insert).
    assert (i < length ls) as Hlt by (by eapply lookup_lt_Some).
    rewrite <-(take_drop_middle ls i (op :: l)) at 2 by done.
    rewrite insert_take_drop by done.
    rewrite !concat_app. simpl.
    rewrite !applyOps_app, applyOps_cons.
    rewrite applyOps_commute_left; [by rewrite applyOps_app|].
    intros a Ha. apply list_elem_of_In, in_concat in Ha as (la & Hla & Ha).
    apply list_elem_of_In in Hla, Ha.
    apply list_elem_of_lookup in Hla as [j Hj].
    rewrite lookup_take_Some in Hj. destruct Hj as [Hj Hji].
    eapply (Hc i j); [lia|done..| |done]. by left.
Qed.

End Independence.

(** ** The order of independent tasks does not matter *)

Section Determinism.
Context `{R : Reflect}.

Abbreviation taskOf es n :=
  (mkTask n (entriesFor n es) (fieldVal <$> entriesFor n es)).

Lemma tasks_Commuting h c es order :
  independent h es = true ->
  NoDup order ->
  Commuting ((fun n => (planTask h c (taskOf es n)).1) <$> order).
Proof.
  intros Hind Hnd i j la lb a b Hij Hi Hj Ha Hb.
  rewrite list_lookup_fmap in Hi, Hj.
  destruct (order !! i) as [n1|] eqn:Hn1, (order !! j) as [n2|] eqn:Hn2;
    simplify_eq/=.
  eapply (independent_commute h c es n1 n2); [done| |done..].
  intros <-. apply Hij. by eapply NoDup_lookup.
Qed.

(** Running independent tasks in another order has the same effect. *)
Lemma applyOps_order (f : string -> list Op) order order' :
  order ≡ₚ order' ->
  NoDup order ->
  (forall n1 n2 a b, n1 ∈ order -> n2 ∈ order -> n1 <> n2 ->
     a ∈ f n1 -> b ∈ f n2 -> opsCommute a b) ->
  forall h, applyOps h (concat (f <$> order))
            = applyOps h (concat (f <$> order')).
Proof.
  induction 1 as [|x l l' Hperm IH|x y l|l l' l'' H1 IH1 H2 IH2];
    intros Hnd Hc h.
  - done.
  - rewrite !fmap_cons. simpl. rewrite !applyOps_app. apply IH.
    + by apply NoDup_cons in Hnd as [_ ?].
    + intros n1 n2 a b H1 H2. apply Hc; by right.
  - rewrite !fmap_cons. simpl. rewrite !app_assoc, !applyOps_app. f_equal.
    rewrite <-!applyOps_app.
    apply applyOps_blocks_commute. intros a b Ha Hb.
    apply (Hc y x); [set_solver..| |done|done].
    apply NoDup_cons in Hnd as [Hy _]. set_solver.
  - rewrite IH1 by done. apply IH2.
    + by rewrite <-H1.
    + intros n1 n2 a b Hn1 Hn2. apply Hc; by rewrite H1.
Qed.

Lemma planTask_ext h c c' t :
  aggregateHandlers c' = aggregateHandlers c ->
  combineCtx c' = combineCtx c ->
  planTask h c' t = planTask h c t.
Proof. intros Hh Hx. unfold planTask. by rewrite Hh, Hx. Qed.

Lemma itemOk_ext c c' h items :
  aggregateHandlers c' = aggregateHandlers c ->
  forallb (itemOk c' h) items = forallb (itemOk c h) items.
Proof.
  intros Hh. f_equal. unfold itemOk, fieldOk. by rewrite Hh.
Qed.

Lemma dispatch_allOk c sched tasks st st' r :
  (if concurrent c then runConcurrent c sched tasks
   else forEach (runTask c) tasks) st = (st', r) ->
  (forall t, t ∈ tasks -> is_Some (aggregateHandlers c !! name t)) ->
  Forall (fun t => (planTask (heap st) c t).2 = Ok ()) tasks ->
  r = Ok ().
Proof.
  intros Hrun Hreg Hall.
  apply dispatch_spec in Hrun as (_ & _ & _ & _ & _ & Herr & Hpanic);
    [|done].
  rewrite Forall_forall in Hall.
  destruct r as [[]|e|]; [done|..].
  - destruct (Herr e eq_refl) as (t & Ht & Ho).
    rewrite (Hall t Ht) in Ho. done.
  - destruct (Hpanic eq_refl) as (t & Ht & Ho).
    rewrite (Hall t Ht) in Ho. done.
Qed.

(** A successful run on an independent batch, in full: every task ends
    well, and the heap is the one obtained by running the tasks' writes one
    task after another, in any order of the tasks. *)
Lemma Process_Ok_heap order sched c item items st st' order0 :
  let es := batchEntries (heap st) (item :: items) in
  orderOk c (item :: items) st order ->
  independent (heap st) es = true ->
  Process order sched c (item :: items) st = (st', Ok ()) ->
  order0 ≡ₚ firstSeen es.*1 ->
  forallb (itemOk c (heap st)) (item :: items) = true
  /\ order ≡ₚ firstSeen es.*1
  /\ Forall (fun n => (planTask (heap st) c (taskOf es n)).2 = Ok ()) order0
  /\ heap st'
     = applyOps (heap st)
         (concat ((fun n => (planTask (heap st) c (taskOf es n)).1) <$> order0)).
Proof.
  intros es Hord Hind Hrun Hord0. subst es.
  rewrite Process_cons in Hrun. unfold mbind, M_bind in Hrun.
  destruct (collect c (item :: items) st) as [st1 [aggs| |]] eqn:Hc;
    [|done..].
  specialize (Hord _ _ Hc).
  apply collect_Ok_inv in Hc as (Hok & -> & ->).
  apply rangeOrder_firstSeen in Hord.
  apply dispatch_spec in Hrun as (ops & evs & -> & (rest & Hil & Hrest) & HOk & _);
    [|intros t Ht; by apply (tasks_registered c (heap st) (item :: items) order)].
  destruct (HOk eq_refl) as [Hall _].
  rewrite (Hrest (or_introl eq_refl)), app_nil_r in Hil.
  simpl in *. rewrite (rangeTasks_group _ _ Hord) in Hil, Hall.
  rewrite <-list_fmap_compose in Hil.
  assert (NoDup order) as Hnd by (rewrite Hord; apply firstSeen_NoDup).
  split_and!; [done..| |].
  - rewrite Forall_fmap in Hall. rewrite Forall_forall in Hall |- *.
    intros n Hn. apply Hall. by rewrite Hord, <-Hord0.
  - rewrite (Interleave_applyOps _ _ Hil) by (by apply tasks_Commuting).
    apply (applyOps_order
             (fun n => (planTask (heap st) c
                          (taskOf (batchEntries (heap st) (item :: items)) n)).1));
      [by rewrite Hord, Hord0|done|].
    intros n1 n2 a b _ _ Hne. by apply independent_commute.
Qed.

(** Two runs from the same state, under engines with the same handlers and
    context: if one succeeds on an independent batch, so does the other,
    with the same final heap, whatever order of the tasks, interleaving and
    mode either of them used. *)
Lemma Process_deterministic order sched order' sched' c c' items st st1 :
  aggregateHandlers c' = aggregateHandlers c ->
  combineCtx c' = combineCtx c ->
  orderOk c items st order ->
  orderOk c' items st order' ->
  independent (heap st) (batchEntries (heap st) items) = true ->
  Process order sched c items st = (st1, Ok ()) ->
  exists st2,
    Process order' sched' c' items st = (st2, Ok ()) /\ heap st2 = heap st1.
Proof.
  intros Hh Hx Hord Hord' Hind Hrun.
  destruct items as [|item items].
  - rewrite Process_nil in Hrun. simplify_eq.
    exists st1. by rewrite Process_nil.
  - set (es := batchEntries (heap st) (item :: items)) in *.
    destruct (Process_Ok_heap _ _ _ _ _ _ _ (firstSeen es.*1) Hord Hind Hrun)
      as (Hok & Ho & Hall & Hheap); [done|].
    rewrite <-(itemOk_ext c c') in Hok by done.
    pose proof (collect_ok _ _ _ Hok) as Hc'.
    pose proof (Hord' _ _ Hc') as Ho'.
    apply rangeOrder_firstSeen in Ho'. fold es in Ho', Hc'.
    destruct (Process order' sched' c' (item :: items) st) as [st2 r2] eqn:Hrun'.
    assert (r2 = Ok ()) as ->.
    { rewrite Process_cons in Hrun'. unfold mbind, M_bind in Hrun'.
      rewrite Hc' in Hrun'.
      apply (dispatch_allOk c' sched' _ _ _ _ Hrun').
      - intros t Ht.
        by apply (tasks_registered c' (heap st) (item :: items) order').
      - simpl. rewrite (rangeTasks_group _ _ Ho'), Forall_fmap.
        rewrite Forall_forall in Hall |- *. intros n Hn. simpl.
        rewrite (planTask_ext _ c c') by done. apply Hall. by rewrite <-Ho'. }
    exists st2. split; [done|].
    destruct (Process_Ok_heap _ _ _ _ _ _ _ (firstSeen es.*1) Hord' Hind Hrun')
      as (_ & _ & _ & ->); [done|].
    rewrite Hheap. f_equal. f_equal. apply list_fmap_ext.
    intros _ n _. by rewrite (planTask_ext _ c c').
Qed.

End Determinism.

(** ** Concurrent against sequential dispatch *)

Section Modes.
Context `{R : Reflect}.

Lemma orderOk_WithConcurrent c items st order :
  orderOk (WithConcurrent c) items st order <-> orderOk c items st order.
Proof. done. Qed.




End Modes.

(** ** The fields no directive targets *)

Section Frame.
Context `{R : Reflect}.

Lemma rangeTasks_elem order es t :
  t ∈ rangeTasks order (group es) ->
  name t ∈ es.*1
  /\ refs t = entriesFor (name t) es
  /\ values t = fieldVal <$> entriesFor (name t) es.
Proof.
  unfold rangeTasks. intros (n & _ & Ht)%list_elem_of_omap.
  rewrite group_lookup in Ht.
  destruct (decide (entriesFor n es = [])) as [|Hne]; simplify_eq/=.
  split; [|done].
  destruct (decide (n ∈ es.*1)) as [|Hn]; [done|].
  by apply entriesFor_nil_iff in Hn.
Qed.

Lemma rangeTasks_registered c h items order t :
  forallb (itemOk c h) items = true ->
  t ∈ rangeTasks order (group (batchEntries h items)) ->
  is_Some (aggregateHandlers c !! name t).
Proof.
  intros Hok (Hn & _)%rangeTasks_elem. by eapply batchEntries_registered.
Qed.




End Frame.

(** ** Records passed by value *)

Section ByValue.
Context `{R : Reflect}.

(** An entry of the batch comes from a tagged field of one of its records. *)
Lemma fieldEntries_elem elem i fs fn ref :
  (fn, ref) ∈ fieldEntries elem i fs ->
  itemValue ref = elem
  /\ exists f spec,
       i <= fieldIdx ref
       /\ fs !! (fieldIdx ref - i) = Some f
       /\ fieldVal ref = Val f
       /\ parseTag (Tag f) = Some spec
       /\ funcName spec = fn
       /\ outputTarget spec = output ref.
Proof.
  revert i. induction fs as [|f fs IH]; intros i Hin; simpl in Hin.
  - by apply elem_of_nil in Hin.
  - assert ((fn, ref) ∈ fieldEntries elem (S i) fs ->
            itemValue ref = elem
            /\ exists f0 spec,
                 i <= fieldIdx ref
                 /\ (f :: fs) !! (fieldIdx ref - i) = Some f0
                 /\ fieldVal ref = Val f0
                 /\ parseTag (Tag f0) = Some spec
                 /\ funcName spec = fn
                 /\ outputTarget spec = output ref) as Htail.
    { intros Ht.
      destruct (IH _ Ht) as (He & f0 & spec & Hle & Hl & Hv & Hp & Hf & Ho).
      split; [done|]. exists f0, spec. split_and!; [lia| |done..].
      replace (fieldIdx ref - i) with (S (fieldIdx ref - S i)) by lia.
      done. }
    destruct (parseTag (Tag f)) as [spec|] eqn:Hp; [|by apply Htail].
    apply elem_of_cons in Hin as [Heq|Hin]; [|by apply Htail].
    simplify_eq/=. split; [done|]. exists f, spec.
    split_and!; [done| |done..]. by rewrite Nat.sub_diag.
Qed.

Lemma batchEntries_elem h items fn ref :
  (fn, ref) ∈ batchEntries h items ->
  exists item s f spec,
    item ∈ items
    /\ record h item = Some s
    /\ itemValue ref = ValueOf item
    /\ Fields s !! fieldIdx ref = Some f
    /\ fieldVal ref = Val f
    /\ parseTag (Tag f) = Some spec
    /\ funcName spec = fn
    /\ outputTarget spec = output ref.
Proof.
  unfold batchEntries. intros (item & Hin & Hitem)%list_elem_of_bind.
  unfold itemEntries in Hin.
  destruct (record h item) as [s|] eqn:Hs; simpl in Hin;
    [|by apply elem_of_nil in Hin].
  apply fieldEntries_elem in Hin
    as (He & f & spec & _ & Hl & Hv & Hp & Hf & Ho).
  rewrite Nat.sub_0_r in Hl. by exists item, s, f, spec.
Qed.








End ByValue.

(** ** Resolution of the value written back *)

Section Resolution.
Context `{R : Reflect}.


End Resolution.

(** ** A second run on the mutated batch *)

Section Rerun.
Context `{R : Reflect}.

(** *** Writes are idempotent *)






(** *** The entries collected again *)








(** *** The plans of the second run *)







End Rerun.

(** ** Running [Process] again *)

Section Again.
Context `{R : Reflect}.

(** Two runs from the same original values, on a batch whose tasks touch
    pairwise-disjoint fields: if one succeeds, so does the other, whatever
    order of the tasks and interleaving each meets, and the records end in
    the same state. *)
Lemma rerun_from_original_reproduces (order order' : list string)
  (sched sched' : list nat) (c : Combine) (items : list Item)
  (st st1 : State) :
  orderOk c items st order ->
  orderOk c items st order' ->
  independent (heap st) (batchEntries (heap st) items) = true ->
  Process order sched c items st = (st1, Ok ()) ->
  exists st2,
    Process order' sched' c items st = (st2, Ok ()) /\ heap st2 = heap st1.
Proof.
  intros Hord Hord' Hind Hrun.
  by apply (Process_deterministic order sched order' sched' c c items st st1).
Qed.



End Again.

(** ** The theorems at work, and where the claims as stated fail *)

Section Examples.
Import Demo.

(** The theorem for C1 on the batch [&named, &scored, &named], with only
    [f] and [g] registered: [avg_score] has no handler. *)
Lemma unregistered_handler_aborts_witness :
  exists tr,
    Process [] [] cFG [PtrTo 0; PtrTo 1; PtrTo 0] stScored
    = (mkState (heap stScored) (trace stScored ++ tr),
       Err (ErrNotRegistered "avg_score"))
    /\ forallb isLookup tr = true.
Proof.
  apply (unregistered_handler_aborts [] [] cFG [PtrTo 0] (PtrTo 1) [PtrTo 0]
           scored [fld "ID" TInt "" (Some (DInt 1))]
           (fld "Score" TInt "avg_score,fn:SetAvg" (Some (DInt 90))) []
           (mkTagSpec "avg_score" "fn:SetAvg") stScored);
    reflexivity.
Defined.

(** C1 (as stated) fails: the batch [42, &scored] contains a field whose
    directive names the unregistered [avg_score], yet [Process] returns the
    error about the element that is no record. *)
Lemma element_error_precedes_unregistered :
  (exists s f spec,
     record (heap stScored) (PtrTo 1) = Some s /\ f ∈ Fields s
     /\ parseTag (Tag f) = Some spec
     /\ aggregateHandlers cFG !! funcName spec = None)
  /\ (forall order sched,
        (Process order sched cFG [NoRecord; PtrTo 1] stScored).2
        = Err ErrElement).
Proof.
  split.
  - exists scored, (fld "Score" TInt "avg_score,fn:SetAvg" (Some (DInt 90))),
      (mkTagSpec "avg_score" "fn:SetAvg").
    split_and!; [reflexivity| |reflexivity..]. set_solver.
  - intros order sched. reflexivity.
Qed.

Lemma orderOk_two order :
  orderOk cFG [PtrTo 0] stTwo order -> order = ["f"; "g"] \/ order = ["g"; "f"].
Proof.
  intros Hord. specialize (Hord _ _ eq_refl).
  apply (rangeOrder_firstSeen order (batchEntries (heap stTwo) [PtrTo 0]))
    in Hord.
  symmetry in Hord. by apply Permutation_length_2_inv in Hord.
Qed.

Lemma orderOk_two_gf : orderOk cFG [PtrTo 0] stTwo ["g"; "f"].
Proof.
  intros st' aggs Hc. apply collect_Ok_inv in Hc as (_ & _ & ->).
  apply rangeOrder_firstSeen. apply perm_swap.
Qed.

(** C2 (as stated) fails: [f] and [g] are both registered and both occur in
    a directive of the batch [&two], yet in sequential mode, whatever order
    the runtime picks, exactly one handler is invoked during the call: the
    task that runs first fails to bind, and the other is skipped. *)
Lemma aborted_batch_skips_handlers :
  is_Some (aggregateHandlers cFG !! "f")
  /\ is_Some (aggregateHandlers cFG !! "g")
  /\ (batchEntries (heap stTwo) [PtrTo 0]).*1 = ["f"; "g"]
  /\ (forall order sched,
        orderOk cFG [PtrTo 0] stTwo order ->
        length (handled (trace (Process order sched cFG [PtrTo 0] stTwo).1))
        = 1).
Proof.
  split_and!; [by eexists..|reflexivity|].
  intros order sched [-> | ->]%orderOk_two; reflexivity.
Qed.

(** The theorem for C2 on the batch [&named] with [f] registered. *)
Lemma handlers_invoked_once_witness :
  exists tr,
    trace (Process ["f"] [] cFG [PtrTo 0] stScored).1 = trace stScored ++ tr
    /\ forall fn, fn ∈ (batchEntries (heap stScored) [PtrTo 0]).*1 ->
         handledFor fn tr
         = [(fn, collected (heap stScored) [PtrTo 0] fn, combineCtx cFG)].
Proof.
  apply (handlers_invoked_once ["f"] [] cFG [PtrTo 0] stScored).
  - intros st' aggs Hc. apply collect_Ok_inv in Hc as (_ & _ & ->).
    apply rangeOrder_firstSeen. reflexivity.
  - reflexivity.
Defined.

(** C4 (as stated) fails: on the batch [&two] the function names are met in
    the order [f], [g], but [g], [f] is an order in which the runtime may
    enumerate the map of tasks; then the handler of [g] is the one invoked
    and the error returned is that of [g], not that of [f]. *)
Lemma map_order_is_not_discovery_order :
  firstSeen (batchEntries (heap stTwo) [PtrTo 0]).*1 = ["f"; "g"]
  /\ orderOk cFG [PtrTo 0] stTwo ["g"; "f"]
  /\ (Process ["g"; "f"] [] cFG [PtrTo 0] stTwo).2 = Err (ErrCannotSet "NopeG")
  /\ (handled (trace (Process ["g"; "f"] [] cFG [PtrTo 0] stTwo).1)).*1.*1
     = ["g"]
  /\ (Process ["f"; "g"] [] cFG [PtrTo 0] stTwo).2 = Err (ErrCannotSet "NopeF").
Proof. split_and!; [reflexivity|apply orderOk_two_gf|reflexivity..]. Qed.

(** The theorem for C4 on the batch [&two], the runtime enumerating [g]
    before [f]. *)
Lemma sequential_abort_witness :
  exists st3,
    Process ["g"; "f"] [] cFG [PtrTo 0] stTwo
    = (st3, Err (ErrCannotSet "NopeG"))
    /\ handled (trace st3)
       = [("g", [Some (DInt 2)], combineCtx cFG)].
Proof.
  eexists.
  destruct (sequential_abort ["g"; "f"] [] cFG [PtrTo 0] stTwo
              (collect cFG [PtrTo 0] stTwo).1
              (collect cFG [PtrTo 0] stTwo).1
              (Process ["g"; "f"] [] cFG [PtrTo 0] stTwo).1
              (group (batchEntries (heap stTwo) [PtrTo 0]))
              []
              taskG [taskF]
              (ErrCannotSet "NopeG"))
    as (Hrun & _ & Hh);
    [reflexivity|discriminate|reflexivity| |reflexivity..|].
  - apply rangeOrder_firstSeen. apply perm_swap.
  - split; [exact Hrun|exact Hh].
Defined.









(** A field value that is no map key: in the batch [&listed{Tags: a}] the
    handler returns the empty map, the lookup under the position finds
    nothing, and the lookup under the slice panics. *)
Lemma unhashable_field_value_panics :
  forall order sched,
    orderOk cSilent [PtrTo 0] stListed order ->
    (Process order sched cSilent [PtrTo 0] stListed).2 = Panic.
Proof.
  intros order sched Hord.
  assert (forallb (itemOk cSilent (heap stListed)) [PtrTo 0] = true)
    as Hok by reflexivity.
  specialize (Hord _ _ (collect_ok _ _ _ Hok)).
  apply rangeOrder_firstSeen in Hord.
  change (order ≡ₚ ["f"]) in Hord.
  apply Permutation_singleton_r in Hord as ->.
  reflexivity.
Qed.

(** Two runs of the batch of the repository's test of concurrent dispatch
    from the original values, the runtime enumerating the tasks in two
    different orders. *)
Lemma rerun_from_original_reproduces_example :
  exists st2,
    Process ["agg2"; "agg1"] [] cAgg [PtrTo 0; PtrTo 1; PtrTo 2] stObj
    = (st2, Ok ())
    /\ heap st2
       = heap (Process ["agg1"; "agg2"] [] cAgg
                 [PtrTo 0; PtrTo 1; PtrTo 2] stObj).1.
Proof.
  apply (rerun_from_original_reproduces ["agg1"; "agg2"] ["agg2"; "agg1"]
           [] [] cAgg [PtrTo 0; PtrTo 1; PtrTo 2] stObj).
  - intros st' aggs Hc. apply collect_Ok_inv in Hc as (_ & _ & ->).
    apply rangeOrder_firstSeen. reflexivity.
  - intros st' aggs Hc. apply collect_Ok_inv in Hc as (_ & _ & ->).
    apply rangeOrder_firstSeen. apply perm_swap.
  - reflexivity.
  - reflexivity.
Qed.



End Examples.

(** ** Validation comes before every effect *)

Section Validation.
Context `{R : Reflect}.

Lemma lookups_handled tr : forallb isLookup tr = true -> handled tr = [].
Proof.
  induction tr as [|ev tr IH]; [done|]. simpl.
  intros [Hev Htr]%andb_true_iff. destruct ev; try done. by apply IH.
Qed.

Lemma forallb_lookups fns : forallb isLookup (EvLookup <$> fns) = true.
Proof. induction fns as [|fn fns IH]; [done|]. done. Qed.

(** The first pass checks the whole batch before the second pass starts:
    if some element is no record, or some field with a directive is not
    exported or names a function without a handler, [Process] does not
    return success, no record is changed, and the trace gains registry
    lookups only: no handler is invoked, for any of the directives. *)
Theorem invalid_batch_has_no_effect (order : list string) (sched : list nat)
  (c : Combine) (items : list Item) (st st' : State) (r : Outcome unit) :
  forallb (itemOk c (heap st)) items = false ->
  Process order sched c items st = (st', r) ->
  r <> Ok ()
  /\ heap st' = heap st
  /\ handled (trace st') = handled (trace st)
  /\ exists tr, trace st' = trace st ++ tr /\ forallb isLookup tr = true.
Proof.
  intros Hbad Hrun. destruct items as [|item items]; [done|].
  rewrite Process_cons in Hrun. unfold mbind, M_bind in Hrun.
  destruct (collect c (item :: items) st) as [st1 o] eqn:Hc.
  apply collect_pure in Hc as (Hheap & (tr & Htr & Hlook) & Hok).
  destruct o as [aggs|e|].
  { rewrite (Hok aggs eq_refl) in Hbad. done. }
  - simplify_eq. split_and!; [done|done| |by exists tr].
    by rewrite Htr, handled_app, (lookups_handled tr), app_nil_r.
  - simplify_eq. split_and!; [done|done| |by exists tr].
    by rewrite Htr, handled_app, (lookups_handled tr), app_nil_r.
Qed.

(** An element that is neither a struct nor a pointer to one (a nil
    pointer and the nil interface included) is reported as soon as the
    first pass reaches it: when the elements before it pass, [Process]
    returns [slice element must be struct or *struct], whatever follows,
    having done nothing but the registry lookups for the elements before. *)
Theorem non_struct_element_rejected (order : list string) (sched : list nat)
  (c : Combine) (pre : list Item) (item : Item) (post : list Item)
  (st : State) :
  forallb (itemOk c (heap st)) pre = true ->
  record (heap st) item = None ->
  Process order sched c (pre ++ item :: post) st
  = (mkState (heap st)
       (trace st ++ (EvLookup <$> (batchEntries (heap st) pre).*1)),
     Err ErrElement).
Proof.
  intros Hpre Hitem.
  unfold Process. rewrite decide_False by (rewrite length_app; simpl; lia).
  unfold collect. unfold mbind at 1. unfold M_bind.
  rewrite foldFrom_app. unfold mbind at 1. unfold M_bind.
  rewrite (collectItems_ok _ _ _ _ _ Hpre).
  cbn [foldFrom]. unfold mbind at 1. unfold M_bind.
  rewrite collectItem_unfold. cbn [heap]. by rewrite Hitem.
Qed.

(** A field that carries a directive is read before its function is looked
    up: when everything before it passes and the field is not exported,
    [Process] panics, registered handler or not; no record is changed and
    no handler invoked. *)
Theorem unexported_tagged_field_panics (order : list string)
  (sched : list nat) (c : Combine) (pre : list Item) (item : Item)
  (post : list Item) (s : StructVal) (fpre : list StructField)
  (f : StructField) (fpost : list StructField) (spec : tagSpec)
  (st : State) :
  forallb (itemOk c (heap st)) pre = true ->
  record (heap st) item = Some s ->
  Fields s = fpre ++ f :: fpost ->
  forallb (fieldOk c) fpre = true ->
  parseTag (Tag f) = Some spec ->
  Exported f = false ->
  exists tr,
    Process order sched c (pre ++ item :: post) st
    = (mkState (heap st) (trace st ++ tr), Panic)
    /\ forallb isLookup tr = true.
Proof.
  intros Hpre Hs Hfs Hfpre Hspec Hexp.
  unfold Process. rewrite decide_False by (rewrite length_app; simpl; lia).
  unfold collect. unfold mbind at 1. unfold M_bind.
  rewrite foldFrom_app. unfold mbind at 1. unfold M_bind.
  rewrite (collectItems_ok _ _ _ _ _ Hpre).
  cbn [foldFrom]. unfold mbind at 1. unfold M_bind.
  rewrite collectItem_unfold. cbn [heap]. rewrite Hs, Hfs.
  rewrite foldFrom_app. unfold mbind at 1. unfold M_bind.
  rewrite (collectFields_ok _ _ _ _ _ _ Hfpre).
  cbn [foldFrom]. unfold mbind at 1. unfold M_bind.
  rewrite collectField_unfold, Hspec, Hexp. cbn [heap trace].
  eexists. split.
  - rewrite <-app_assoc. reflexivity.
  - rewrite forallb_app. by rewrite !forallb_lookups.
Qed.

End Validation.

(** ** Where errors and panics come from *)

Section Outcomes.
Context `{R : Reflect}.

(** *** The first pass *)

Lemma collectFields_fails c elem i fs aggregates st st' r :
  foldFrom (collectField c elem) i fs aggregates st = (st', r) ->
  match r with
  | Ok _ => True
  | Err e =>
      exists f spec,
        f ∈ fs /\ parseTag (Tag f) = Some spec
        /\ aggregateHandlers c !! funcName spec = None
        /\ e = ErrNotRegistered (funcName spec)
  | Panic =>
      exists f spec,
        f ∈ fs /\ parseTag (Tag f) = Some spec /\ Exported f = false
  end.
Proof.
  revert i aggregates st.
  induction fs as [|f fs IH]; intros i aggregates st; simpl.
  - unfold mret, M_ret. by intros [= <- <-].
  - unfold mbind, M_bind. rewrite collectField_unfold.
    assert (forall st1 a1,
              foldFrom (collectField c elem) (S i) fs a1 st1 = (st', r) ->
              match r with
              | Ok _ => True
              | Err e =>
                  exists f0 spec,
                    f0 ∈ f :: fs /\ parseTag (Tag f0) = Some spec
                    /\ aggregateHandlers c !! funcName spec = None
                    /\ e = ErrNotRegistered (funcName spec)
              | Panic =>
                  exists f0 spec,
                    f0 ∈ f :: fs /\ parseTag (Tag f0) = Some spec
                    /\ Exported f0 = false
              end) as Htail.
    { intros st1 a1 Hrun. apply IH in Hrun. destruct r as [a|e|]; [done|..].
      - destruct Hrun as (f0 & spec & Hin & ?). exists f0, spec.
        split; [by right|done].
      - destruct Hrun as (f0 & spec & Hin & ?). exists f0, spec.
        split; [by right|done]. }
    destruct (parseTag (Tag f)) as [spec|] eqn:Hspec; [|by apply Htail].
    destruct (Exported f) eqn:Hexp.
    + destruct (aggregateHandlers c !! funcName spec) as [hd|] eqn:Hreg;
        [by apply Htail|].
      intros [= <- <-]. exists f, spec. split; [by left|done].
    + intros [= <- <-]. exists f, spec. split; [by left|done].
Qed.

Lemma collectItems_fails c i items aggregates st st' r :
  foldFrom (fun _ => collectItem c) i items aggregates st = (st', r) ->
  match r with
  | Ok _ => True
  | Err e =>
      (e = ErrElement
       /\ exists item, item ∈ items /\ record (heap st) item = None)
      \/ exists f spec,
           directive (heap st) items f spec
           /\ aggregateHandlers c !! funcName spec = None
           /\ e = ErrNotRegistered (funcName spec)
  | Panic =>
      exists f spec,
        directive (heap st) items f spec /\ Exported f = false
  end.
Proof.
  revert i aggregates st.
  induction items as [|item items IH]; intros i aggregates st; simpl.
  - unfold mret, M_ret. by intros [= <- <-].
  - unfold mbind, M_bind. rewrite collectItem_unfold.
    destruct (record (heap st) item) as [s|] eqn:Hs.
    + destruct (foldFrom (collectField c (ValueOf item)) 0 (Fields s)
                  aggregates st) as [st1 r1] eqn:Hf.
      pose proof (collectFields_pure _ _ _ _ _ _ _ _ Hf) as (Hh1 & _).
      apply collectFields_fails in Hf.
      destruct r1 as [a1|e1|].
      * intros Hrun. apply IH in Hrun. rewrite Hh1 in Hrun.
        destruct r as [a|e|]; [done|..].
        -- destruct Hrun as [(-> & it & Hin & Hit)
                            |(f & spec & (it & s' & Hin & ?) & ?)].
           ++ left. split; [done|]. exists it. split; [by right|done].
           ++ right. exists f, spec. split; [|done].
              exists it, s'. split; [by right|done].
        -- destruct Hrun as (f & spec & (it & s' & Hin & ?) & ?).
           exists f, spec. split; [|done].
           exists it, s'. split; [by right|done].
      * intros [= <- <-]. right.
        destruct Hf as (f & spec & Hin & Hp & Hreg & ->).
        exists f, spec. split; [|done]. exists item, s.
        split; [by left|done].
      * intros [= <- <-].
        destruct Hf as (f & spec & Hin & Hp & Hexp).
        exists f, spec. split; [|done]. exists item, s.
        split; [by left|done].
    + intros [= <- <-]. left. split; [done|]. exists item.
      split; [by left|done].
Qed.

(** *** Binding a collected entry *)




(** A collected entry sits on a record, at a field the record has. *)
Lemma entry_struct h items fn ref :
  (fn, ref) ∈ batchEntries h items ->
  kindOf h (derefIfPtr h (itemValue ref)) = KStruct
  /\ is_Some (fieldsOf h (derefIfPtr h (itemValue ref)) !! fieldIdx ref).
Proof.
  intros (item & s & f & spec & Hin & Hs & Hv & Hf & _)%batchEntries_elem.
  rewrite Hv. destruct item as [l|s'|]; simpl in *; [| |done].
  - unfold derefIfPtr, fieldsOf. simpl. rewrite Hs. simpl. eauto.
  - simplify_eq. unfold derefIfPtr, fieldsOf. simpl. eauto.
Qed.

Lemma targetName_collected h items fn ref :
  (fn, ref) ∈ batchEntries h items ->
  exists fieldName, targetName h ref = Ok fieldName.
Proof.
  intros Hin. destruct (entry_struct _ _ _ _ Hin) as [_ [f Hf]].
  unfold targetName. rewrite Hf. destruct (decide (output ref = "")); eauto.
Qed.

Lemma planEntry_error h items fn ref result idx e :
  (fn, ref) ∈ batchEntries h items ->
  planEntry h result idx ref = Err e -> isBindingError e = true.
Proof.
  intros Hin. destruct (entry_struct _ _ _ _ Hin) as [Hk _].
  destruct (targetName_collected _ _ _ _ Hin) as [fieldName Ht].
  unfold planEntry, resolved, mbind, Outcome_bind. rewrite Ht.
  assert (forall out,
            (if isCallback (output ref) then
               planCall h (itemValue ref)
                 (strings.TrimPrefix (output ref) "fn:") out
             else planSet h (derefIfPtr h (itemValue ref)) fieldName out)
            = Err e -> isBindingError e = true) as Hb.
  { intros out. destruct (isCallback (output ref)).
    - unfold planCall, mbind, Outcome_bind.
      repeat (case_match; simplify_eq/=; try done);
        intros; simplify_eq/=; done.
    - unfold planSet, mbind, Outcome_bind.
      rewrite decide_False by (by intros ?).
      repeat (case_match; simplify_eq/=; try done);
        try (intros; simplify_eq/=; done).
      all: by destruct (derefIfPtr h (itemValue ref)). }
  destruct (result (Some (OfInt (Z.of_nat idx)))) as [v|]; [apply Hb|].
  destruct (hashable (fieldVal ref)); [apply Hb|done].
Qed.


(** Where the write-back loop stops. *)
Lemma planRefs_stops h result i rs o :
  (planRefs h result i rs).2 = o -> o <> Ok () ->
  exists k ref,
    rs !! k = Some ref
    /\ match planEntry h result (i + k) ref with
       | Ok _ => False
       | Err e => o = Err e
       | Panic => o = Panic
       end.
Proof.
  revert i. induction rs as [|r rs IH]; intros i Hend Hne; simpl in *.
  - congruence.
  - destruct (planEntry h result i r) as [op| |] eqn:Hp.
    + destruct (planRefs h result (S i) rs) as [ops o'] eqn:Hrs. simpl in *.
      destruct (IH (S i)) as (k & ref & Hk & Href);
        [by rewrite Hrs|done|].
      exists (S k), ref. split; [done|].
      by replace (i + S k) with (S i + k) by lia.
    + exists 0, r. split; [done|]. by rewrite Nat.add_0_r, Hp.
    + exists 0, r. split; [done|]. by rewrite Nat.add_0_r, Hp.
Qed.

(** How a task of the batch fails: at one of its entries. *)
Lemma task_stops order c h items t o :
  forallb (itemOk c h) items = true ->
  t ∈ rangeTasks order (group (batchEntries h items)) ->
  (planTask h c t).2 = o -> o <> Ok () ->
  exists handler idx ref,
    aggregateHandlers c !! name t = Some handler
    /\ entriesFor (name t) (batchEntries h items) !! idx = Some ref
    /\ match planEntry h (handler (collected h items (name t)) (combineCtx c))
               idx ref with
       | Ok _ => False
       | Err e => o = Err e
       | Panic => o = Panic
       end.
Proof.
  intros Hok Ht Ho Hne.
  destruct (rangeTasks_registered c h items order t Hok Ht) as [hd Hhd].
  apply rangeTasks_elem in Ht as (_ & Hrefs & Hvals).
  unfold planTask in Ho. rewrite Hhd, Hrefs, Hvals in Ho.
  apply planRefs_stops in Ho as (k & ref & Hk & Href); [|done].
  by exists hd, k, ref.
Qed.

(** Every error [Process] returns has one of three origins: an element
    of the batch that is no record; a directive of the batch whose function
    has no handler; or the binding of one collected entry to the result of
    its handler on the values collected for its function, which fails with
    an error of [setField] or [callOutputFunc] about that entry.  The errors
    [aggregate handler not found] and [setField target must be struct] are
    never returned. *)
Theorem returned_error_origin (order : list string) (sched : list nat)
  (c : Combine) (items : list Item) (st st' : State) (e : Error) :
  Process order sched c items st = (st', Err e) ->
  (e = ErrElement
   /\ exists item, item ∈ items /\ record (heap st) item = None)
  \/ (exists f spec,
        directive (heap st) items f spec
        /\ aggregateHandlers c !! funcName spec = None
        /\ e = ErrNotRegistered (funcName spec))
  \/ (isBindingError e = true
      /\ exists fn handler idx ref,
           aggregateHandlers c !! fn = Some handler
           /\ entriesFor fn (batchEntries (heap st) items) !! idx = Some ref
           /\ bindEntry
                (handler (collected (heap st) items fn) (combineCtx c))
                idx ref st
              = (st, Err e)).
Proof.
  intros Hrun. destruct items as [|item items].
  { by rewrite Process_nil in Hrun. }
  rewrite Process_cons in Hrun. unfold mbind, M_bind in Hrun.
  destruct (collect c (item :: items) st) as [st1 o] eqn:Hc.
  destruct o as [aggs|e1|]; [| |done].
  - apply collect_Ok_inv in Hc as (Hok & -> & ->).
    apply dispatch_spec in Hrun as (ops & evs & _ & _ & _ & Herr & _);
      [|intros t Ht;
        by apply (rangeTasks_registered c (heap st) (item :: items) order)].
    destruct (Herr e eq_refl) as (t & Ht & Ho). cbn [heap] in *.
    destruct (task_stops order c (heap st) (item :: items) t _ Hok Ht Ho)
      as (hd & idx & ref & Hhd & Hidx & Href); [done|].
    destruct (planEntry (heap st)
                (hd (collected (heap st) (item :: items) (name t))
                   (combineCtx c)) idx ref) as [op|e'|] eqn:Hp;
      [done| |done].
    simplify_eq. right. right. split.
    + apply (planEntry_error _ (item :: items) (name t)) in Hp; [done|].
      apply entriesFor_elem. by eapply list_elem_of_lookup_2.
    + exists (name t), hd, idx, ref. split_and!; [done..|].
      by rewrite bindEntry_exec, Hp.
  - simplify_eq. apply collectItems_fails in Hc.
    destruct Hc as [?|?]; [by left|right; by left].
Qed.


(** *** Success does not depend on the schedule *)


(** *** Concurrent mode runs every task *)

(** An outcome is no panic, checked by running. *)
Lemma outcome_checked {A} (r : Outcome A) :
  match r with Panic => false | _ => true end = true -> r <> Panic.
Proof. by destruct r. Qed.

Lemma runConcurrent_handled c sched tasks st st' r :
  runConcurrent c sched tasks st = (st', r) ->
  (forall t, t ∈ tasks -> is_Some (aggregateHandlers c !! name t)) ->
  r <> Panic ->
  exists evs,
    trace st' = trace st ++ evs
    /\ handled evs ≡ₚ invocation c <$> tasks.
Proof.
  intros Hrun Hreg Hr.
  apply runConcurrent_Runs in Hrun
    as (p' & ops & evs & Hruns & -> & [[Hdone _]|[? _]]); [|done].
  exists evs. split; [done|].
  apply Runs_handled in Hruns.
  - cbn [fst] in Hruns. rewrite pending_start in Hruns.
    by rewrite (pending_done _ Hdone), app_nil_r in Hruns.
  - cbn [fst]. by rewrite pending_start.
Qed.

(** In concurrent mode a failing task stops no other: on a batch that
    passes the first pass, whenever [Process] returns (success or error),
    the handler of every function name of the batch was invoked exactly
    once, on the values collected for that name and the engine's context. *)
Theorem concurrent_invokes_every_handler (order : list string)
  (sched : list nat) (c : Combine) (items : list Item) (st st' : State)
  (r : Outcome unit) :
  concurrent c = true ->
  orderOk c items st order ->
  forallb (itemOk c (heap st)) items = true ->
  Process order sched c items st = (st', r) ->
  r <> Panic ->
  exists tr,
    trace st' = trace st ++ tr
    /\ forall fn, fn ∈ (batchEntries (heap st) items).*1 ->
         handledFor fn tr
         = [(fn, collected (heap st) items fn, combineCtx c)].
Proof.
  intros Hmode Hord Hok Hrun Hr. destruct items as [|item items].
  { rewrite Process_nil in Hrun. simplify_eq.
    exists []. split; [by rewrite app_nil_r|].
    by intros fn ?%elem_of_nil. }
  rewrite Process_cons in Hrun. unfold mbind, M_bind in Hrun.
  pose proof (collect_ok _ _ _ Hok) as Hc. rewrite Hc, Hmode in Hrun.
  specialize (Hord _ _ Hc). apply rangeOrder_firstSeen in Hord.
  apply runConcurrent_handled in Hrun as (evs & Htr & Hh); [|
    intros t Ht;
      by apply (rangeTasks_registered c (heap st) (item :: items) order)
    |done].
  cbn [trace] in Htr.
  eexists. split; [by rewrite Htr, <-app_assoc|].
  intros fn Hfn. unfold handledFor.
  rewrite handled_app, handled_lookups. simpl.
  apply Permutation_singleton_r.
  rewrite Hh, (rangeTasks_group _ _ Hord).
  rewrite filter_invocation; [done| |].
  - rewrite Hord. apply firstSeen_NoDup.
  - rewrite Hord. by apply firstSeen_elem.
Qed.

End Outcomes.

(** ** What a successful run leaves in the target fields *)

Section WriteBack.
Context `{R : Reflect}.

Lemma concat_insert_perm (ls : list (list Op)) i op l :
  ls !! i = Some (op :: l) -> concat ls ≡ₚ op :: concat (<[i := l]> ls).
Proof.
  revert i. induction ls as [|a ls IH]; intros [|i] Hi; simplify_eq/=.
  - done.
  - rewrite (IH _ Hi). by rewrite Permutation_middle.
Qed.

(** An interleaving performs every write of every list, once. *)
Lemma Interleave_Permutation ls ops : Interleave ls ops -> ops ≡ₚ concat ls.
Proof.
  induction 1 as [ls Hnil|ls i op l ops Hi _ IH].
  - by rewrite concat_all_nil.
  - by rewrite (concat_insert_perm _ _ _ _ Hi), IH.
Qed.

(** A loop that ends well writes once per entry, to the entry's target. *)
Lemma planRefs_targets h result i rs :
  (planRefs h result i rs).2 = Ok () ->
  Forall (fun r => isCallback (output r) = false) rs ->
  opTarget <$> (planRefs h result i rs).1 = entryTarget h <$> rs.
Proof.
  intros Hend Hall. revert i Hend.
  induction Hall as [|r rs Hr _ IH]; intros i Hend; [done|]. simpl in *.
  destruct (planEntry h result i r) as [op| |] eqn:Hp; [|done..].
  destruct (planRefs h result (S i) rs) as [ops o] eqn:Hrs. simpl in *.
  specialize (IH (S i)). rewrite Hrs in IH. simpl in IH.
  f_equal; [|by apply IH].
  by apply planEntry_OpSet in Hp as (l & i0 & fieldName & v & -> & -> & _).
Qed.

Lemma planRefs_lookup h result i rs k ref :
  (planRefs h result i rs).2 = Ok () ->
  rs !! k = Some ref ->
  exists op,
    planEntry h result (i + k) ref = Ok op
    /\ (planRefs h result i rs).1 !! k = Some op.
Proof.
  revert i k. induction rs as [|r rs IH]; intros i k Hend Hk; [done|].
  simpl in *.
  destruct (planEntry h result i r) as [op| |] eqn:Hp; [|done..].
  destruct (planRefs h result (S i) rs) as [ops o] eqn:Hrs. simpl in *.
  destruct k as [|k]; simplify_eq/=.
  - exists op. by rewrite Nat.add_0_r.
  - specialize (IH (S i) k). rewrite Hrs in IH.
    destruct (IH eq_refl Hk) as (op' & Hp' & Hl). exists op'.
    split; [|done]. by replace (i + S k) with (S i + k) by lia.
Qed.

(** The entries of the tasks are the entries of the batch, regrouped. *)
Lemma entriesFor_regroup order (es : list (string * fieldRef)) :
  NoDup order ->
  (forall e, e ∈ es -> e.1 ∈ order) ->
  concat ((fun n => entriesFor n es) <$> order) ≡ₚ es.*2.
Proof.
  intros Hnd. revert es.
  induction Hnd as [|n order Hn Hnd IH]; intros es Hall.
  - destruct es as [|e es]; [done|].
    exfalso. apply (elem_of_nil e.1). apply Hall. by left.
  - rewrite fmap_cons. simpl.
    trans ((filter (fun e => e.1 = n) es
            ++ filter (fun e => ~ e.1 = n) es).*2);
      [|by rewrite filter_app_complement].
    rewrite fmap_app. unfold entriesFor at 1. f_equiv.
    rewrite <-(IH (filter (fun e => ~ e.1 = n) es)).
    + apply reflexive_eq. f_equal. apply list_fmap_ext. intros j m Hm.
      apply list_elem_of_lookup_2 in Hm. unfold entriesFor. f_equal.
      rewrite list_filter_filter. apply list_filter_iff.
      intros e. split; [|tauto]. intros ->. split; [done|]. by intros ->.
    + intros e [He Hin]%list_elem_of_filter.
      specialize (Hall e Hin). apply elem_of_cons in Hall as [?|?]; done.
Qed.

End WriteBack.

(** ** Further theorems at work *)

Section MoreExamples.
Import Demo.

(** The batch [42, &scored]: the element that is no record stops the
    first pass. *)
Lemma invalid_batch_has_no_effect_witness :
  (Process [] [] cFG [NoRecord; PtrTo 1] stScored).2 <> Ok ()
  /\ heap (Process [] [] cFG [NoRecord; PtrTo 1] stScored).1 = heap stScored
  /\ handled (trace (Process [] [] cFG [NoRecord; PtrTo 1] stScored).1)
     = handled (trace stScored)
  /\ exists tr,
       trace (Process [] [] cFG [NoRecord; PtrTo 1] stScored).1
       = trace stScored ++ tr
       /\ forallb isLookup tr = true.
Proof.
  apply (invalid_batch_has_no_effect [] [] cFG [NoRecord; PtrTo 1] stScored);
    reflexivity.
Defined.

(** The batch [&named, 42, &scored]. *)
Lemma non_struct_element_rejected_witness :
  Process [] [] cFG ([PtrTo 0] ++ NoRecord :: [PtrTo 1]) stScored
  = (mkState (heap stScored)
       (trace stScored
          ++ (EvLookup <$> (batchEntries (heap stScored) [PtrTo 0]).*1)),
     Err ErrElement).
Proof.
  apply (non_struct_element_rejected [] [] cFG [PtrTo 0] NoRecord [PtrTo 1]
           stScored); reflexivity.
Defined.

(** The batch [&named, &sealed]: [score] carries a directive and is not
    exported; that [avg_score] has no handler is never found out. *)
Lemma unexported_tagged_field_panics_witness :
  exists tr,
    Process [] [] cFG ([PtrTo 0] ++ PtrTo 1 :: []) stSealed
    = (mkState (heap stSealed) (trace stSealed ++ tr), Panic)
    /\ forallb isLookup tr = true.
Proof.
  apply (unexported_tagged_field_panics [] [] cFG [PtrTo 0] (PtrTo 1) []
           sealed [fld "ID" TInt "" (Some (DInt 1))]
           (hid "score" TInt "avg_score" (Some (DInt 3))) []
           (mkTagSpec "avg_score" "") stSealed); reflexivity.
Defined.

(** The batch [&two] in sequential mode: the error returned is the one of
    binding the entry of [A] to the result of [f]. *)
Lemma returned_error_origin_witness :
  (ErrCannotSet "NopeF" = ErrElement
   /\ exists item, item ∈ [PtrTo 0] /\ record (heap stTwo) item = None)
  \/ (exists f spec,
        directive (heap stTwo) [PtrTo 0] f spec
        /\ aggregateHandlers cFG !! funcName spec = None
        /\ ErrCannotSet "NopeF" = ErrNotRegistered (funcName spec))
  \/ (isBindingError (ErrCannotSet "NopeF") = true
      /\ exists fn handler idx ref,
           aggregateHandlers cFG !! fn = Some handler
           /\ entriesFor fn (batchEntries (heap stTwo) [PtrTo 0]) !! idx
              = Some ref
           /\ bindEntry
                (handler (collected (heap stTwo) [PtrTo 0] fn)
                   (combineCtx cFG))
                idx ref stTwo
              = (stTwo, Err (ErrCannotSet "NopeF"))).
Proof.
  apply (returned_error_origin ["f"; "g"] [] cFG [PtrTo 0] stTwo
           (Process ["f"; "g"] [] cFG [PtrTo 0] stTwo).1).
  reflexivity.
Defined.




(** The batch [&two] in concurrent mode: both tasks fail to bind, an error
    is returned, and both handlers were invoked. *)
Lemma concurrent_invokes_every_handler_witness :
  exists tr,
    trace (Process ["g"; "f"] [0; 1; 1] (WithConcurrent cFG) [PtrTo 0]
             stTwo).1
    = trace stTwo ++ tr
    /\ forall fn, fn ∈ (batchEntries (heap stTwo) [PtrTo 0]).*1 ->
         handledFor fn tr
         = [(fn, collected (heap stTwo) [PtrTo 0] fn,
             combineCtx (WithConcurrent cFG))].
Proof.
  apply (concurrent_invokes_every_handler ["g"; "f"] [0; 1; 1]
           (WithConcurrent cFG) [PtrTo 0] stTwo
           (Process ["g"; "f"] [0; 1; 1] (WithConcurrent cFG) [PtrTo 0]
              stTwo).1
           (Process ["g"; "f"] [0; 1; 1] (WithConcurrent cFG) [PtrTo 0]
              stTwo).2).
  - reflexivity.
  - intros st' aggs Hc. apply collect_Ok_inv in Hc as (_ & _ & ->).
    apply rangeOrder_firstSeen. apply perm_swap.
  - reflexivity.
  - reflexivity.
  - apply outcome_checked. reflexivity.
Defined.

End MoreExamples.
